(** * Verification of the ikbo instruction codec and interpreter

    Shallow embedding of [src/ikbo/asm.py] (field encoders, register
    parsing, line parsing) and [src/ikbo/vm.py] (field decoders and the
    fetch-decode-execute loop of [VM.execute]).

    Python integers are modelled by [Z] (unbounded, two's-complement
    semantics for the bit operations, which is what [Z.land], [Z.shiftr]
    and friends implement); Python [bytes] by [list Byte.byte]; Python
    lists of integers by [list Z] with Python's indexing rules written out
    (negative indices count from the end, anything else raises
    [IndexError]). *)

From Stdlib Require Import Ascii String ZArith List Lia Bool.
From Stdlib Require Import Strings.Byte.
Import ListNotations.
Open Scope Z_scope.

(* ------------------------------------------------------------------ *)
(** ** Python helpers *)

(** [bytes([...])]: every element must lie in [0, 256), otherwise
    Python raises [ValueError] (modelled by [None]). *)
Fixpoint py_bytes (l : list Z) : option (list byte) :=
  match l with
  | [] => Some []
  | x :: r =>
      if (0 <=? x) && (x <? 256) then
        match Byte.of_N (Z.to_N x), py_bytes r with
        | Some b, Some bs => Some (b :: bs)
        | _, _ => None
        end
      else None
  end.

(** Reading an element of a [bytes] object yields an [int]. *)
Definition byte_val (b : byte) : Z := Z.of_N (Byte.to_N b).

(** [l[i]] on a Python list: negative indices count from the end. *)
Definition py_index (len : nat) (i : Z) : option nat :=
  if (0 <=? i) && (i <? Z.of_nat len) then Some (Z.to_nat i)
  else if (- Z.of_nat len <=? i) && (i <? 0) then Some (Z.to_nat (Z.of_nat len + i))
  else None.

Definition py_get (l : list Z) (i : Z) : option Z :=
  match py_index (length l) i with
  | Some k => nth_error l k
  | None => None
  end.

Fixpoint set_nth (l : list Z) (k : nat) (v : Z) : list Z :=
  match l, k with
  | [], _ => []
  | _ :: r, O => v :: r
  | x :: r, S k' => x :: set_nth r k' v
  end.

(** [l[i] = v] on a Python list; [None] is [IndexError]. *)
Definition py_set (l : list Z) (i : Z) (v : Z) : option (list Z) :=
  match py_index (length l) i with
  | Some k => Some (set_nth l k v)
  | None => None
  end.

(* ------------------------------------------------------------------ *)
(** ** Field codec: encoders of [asm.py] *)

Definition LOAD_OP : Z := 67.
Definition READ_OP : Z := 200.
Definition WRITE_OP : Z := 80.
Definition ADD_OP : Z := 178.

(** [LoadInst.to_bytes] *)
Definition LoadInst_to_bytes (const reg : Z) : option (list byte) :=
  let b0 := Z.land LOAD_OP 255 in
  let b1 := Z.land (Z.shiftr const 0) 255 in
  let b2 := Z.land (Z.shiftr const 8) 255 in
  let b3 := Z.land (Z.shiftr const 16) 255 in
  let b4 := Z.lor (Z.land (Z.shiftr const 24) 1) (Z.shiftl (Z.land reg 31) 1) in
  py_bytes [b0; b1; b2; b3; b4].

(** [ReadInst.to_bytes] *)
Definition ReadInst_to_bytes (src_reg offset dst_reg : Z) : option (list byte) :=
  let sr := Z.land src_reg 31 in
  let of := Z.land offset 127 in
  let dr := Z.land dst_reg 31 in
  let b0 := Z.land READ_OP 255 in
  let b1 := Z.lor (Z.shiftl (Z.land sr 31) 3) (Z.land (Z.shiftr of 4) 7) in
  let b2 := Z.lor (Z.shiftl (Z.land of 15) 4) (Z.land (Z.shiftr dr 1) 15) in
  let b3 := Z.shiftl (Z.land dr 1) 7 in
  py_bytes [b0; b1; b2; b3].

(** [WriteInst.to_bytes] *)
Definition WriteInst_to_bytes (src_reg dst_reg : Z) : option (list byte) :=
  let sr := Z.land src_reg 31 in
  let dr := Z.land dst_reg 31 in
  let b0 := Z.land WRITE_OP 255 in
  let b1 := Z.lor (Z.shiftl (Z.land sr 31) 3) (Z.land (Z.shiftr dr 2) 7) in
  let b2 := Z.shiftl (Z.land dr 3) 6 in
  py_bytes [b0; b1; b2].

(** [AddInst.to_bytes] *)
Definition AddInst_to_bytes (src_reg addr addr_reg : Z) : option (list byte) :=
  let sr := Z.land src_reg 31 in
  let ad := Z.land addr 4095 in
  let ar := Z.land addr_reg 31 in
  let b0 := Z.land ADD_OP 255 in
  let b1 := Z.lor (Z.shiftl (Z.land sr 31) 3) (Z.land (Z.shiftr ad 9) 7) in
  let b2 := Z.land (Z.shiftr ad 1) 255 in
  let b3 := Z.lor (Z.shiftl (Z.land ad 1) 7) (Z.shiftl (Z.land ar 31) 2) in
  py_bytes [b0; b1; b2; b3].

(** The instruction model: one constructor per subclass of [Instruction]. *)
Inductive Instruction :=
| LoadInst (const reg : Z)
| ReadInst (src_reg offset dst_reg : Z)
| WriteInst (src_reg dst_reg : Z)
| AddInst (src_reg addr addr_reg : Z).

Definition to_bytes (i : Instruction) : option (list byte) :=
  match i with
  | LoadInst c r => LoadInst_to_bytes c r
  | ReadInst s o d => ReadInst_to_bytes s o d
  | WriteInst s d => WriteInst_to_bytes s d
  | AddInst s a r => AddInst_to_bytes s a r
  end.

(* ------------------------------------------------------------------ *)
(** ** Field codec: decoders of [vm.py] *)

(** [VM._decode_load] *)
Definition decode_load (b0 b1 b2 b3 b4 : Z) : Z * Z :=
  let const := Z.lor (Z.lor (Z.lor b1 (Z.shiftl b2 8)) (Z.shiftl b3 16))
                     (Z.shiftl (Z.land b4 1) 24) in
  let reg := Z.land (Z.shiftr b4 1) 31 in
  (const, reg).

(** [VM._decode_read] *)
Definition decode_read (b0 b1 b2 b3 : Z) : Z * Z * Z :=
  let src_reg := Z.land (Z.shiftr b1 3) 31 in
  let offset := Z.lor (Z.shiftl (Z.land b1 7) 4) (Z.shiftr b2 4) in
  let dst_reg := Z.lor (Z.shiftl (Z.land b2 15) 1) (Z.shiftr b3 7) in
  (src_reg, offset, dst_reg).

(** [VM._decode_write] *)
Definition decode_write (b0 b1 b2 : Z) : Z * Z :=
  let src_reg := Z.land (Z.shiftr b1 3) 31 in
  let dst_reg := Z.lor (Z.shiftl (Z.land b1 7) 2) (Z.shiftr b2 6) in
  (src_reg, dst_reg).

(** [VM._decode_add] *)
Definition decode_add (b0 b1 b2 b3 : Z) : Z * Z * Z :=
  let src_reg := Z.land (Z.shiftr b1 3) 31 in
  let addr := Z.lor (Z.lor (Z.shiftl (Z.land b1 7) 9) (Z.shiftl b2 1)) (Z.shiftr b3 7) in
  let addr_reg := Z.land (Z.shiftr b3 2) 31 in
  (src_reg, addr, addr_reg).

(** Decoding a serialized instruction: the bytes as the interpreter
    hands them to the decoder of the format named by the opcode. *)
Definition decode_bytes (bs : list byte) : option Instruction :=
  match map byte_val bs with
  | [b0; b1; b2; b3; b4] =>
      if b0 =? LOAD_OP then let '(c, r) := decode_load b0 b1 b2 b3 b4 in Some (LoadInst c r)
      else None
  | [b0; b1; b2; b3] =>
      if b0 =? READ_OP then let '(s, o, d) := decode_read b0 b1 b2 b3 in Some (ReadInst s o d)
      else if b0 =? ADD_OP then let '(s, a, r) := decode_add b0 b1 b2 b3 in Some (AddInst s a r)
      else None
  | [b0; b1; b2] =>
      if b0 =? WRITE_OP then let '(s, d) := decode_write b0 b1 b2 in Some (WriteInst s d)
      else None
  | _ => None
  end.

(* ------------------------------------------------------------------ *)
(** ** Arithmetic view of the bit operations *)

Section BitArith.

Lemma land_mask (a c k : Z) : 0 <= k -> c = 2 ^ k - 1 -> Z.land a c = a mod 2 ^ k.
Proof.
  intros Hk ->. replace (2 ^ k - 1) with (Z.ones k).
  - apply Z.land_ones; lia.
  - rewrite Z.ones_equiv. lia.
Qed.

Lemma lor_disjoint (a b k : Z) :
  0 <= k -> 0 <= b < 2 ^ k -> a mod 2 ^ k = 0 -> Z.lor a b = a + b.
Proof.
  intros Hk Hb Ha.
  assert (Hland : Z.land a b = 0).
  { apply Z.bits_inj'; intros i Hi. rewrite Z.land_spec, Z.bits_0.
    destruct (Z_lt_le_dec i k).
    - assert (Ea : a = (a / 2 ^ k) * 2 ^ k).
      { pose proof (Z.div_mod a (2 ^ k)). lia. }
      rewrite Ea, Z.mul_pow2_bits_low by lia. reflexivity.
    - rewrite <- (Z.mod_small b (2 ^ k)) by lia.
      rewrite Z.mod_pow2_bits_high by lia. apply andb_false_r. }
  rewrite <- Z.lxor_lor by exact Hland.
  symmetry. apply Z.add_nocarry_lxor; exact Hland.
Qed.

End BitArith.

Ltac pow_numerals :=
  repeat match goal with
         | |- context [2 ^ ?k] =>
             let v := eval vm_compute in (2 ^ k) in
             progress change (2 ^ k) with v
         end.

Ltac zlia := Z.div_mod_to_equations; lia.

Ltac lor_at a b k :=
  first [ rewrite (lor_disjoint a b k) by (pow_numerals; zlia)
        | rewrite (Z.lor_comm a b), (lor_disjoint b a k) by (pow_numerals; zlia) ].

(** Rewrite masks, shifts and disjoint ors into [+], [*], [/], [mod] by
    constants, which [lia] handles. *)
Ltac to_arith :=
  repeat match goal with
         | |- context [Z.land ?a ?c] =>
             let k := eval vm_compute in (Z.log2 (c + 1)) in
             rewrite (land_mask a c k) by (vm_compute; congruence)
         | |- context [Z.shiftl ?a ?k] => rewrite (Z.shiftl_mul_pow2 a k) by lia
         | |- context [Z.shiftr ?a ?k] => rewrite (Z.shiftr_div_pow2 a k) by lia
         end;
  pow_numerals;
  repeat match goal with
         | |- context [Z.lor ?a ?b] =>
             first [ lor_at a b 1 | lor_at a b 2 | lor_at a b 3 | lor_at a b 4
                   | lor_at a b 6 | lor_at a b 7 | lor_at a b 8 | lor_at a b 9
                   | lor_at a b 16 | lor_at a b 24 ]
         end.

Section Codec.

Definition byte_range (x : Z) : Prop := 0 <= x < 256.

Lemma py_bytes_in_range (l : list Z) :
  Forall byte_range l -> exists bs, py_bytes l = Some bs /\ map byte_val bs = l.
Proof.
  induction 1 as [|x l Hx _ [bs [Hbs Hmap]]]; [exists []; auto|].
  unfold byte_range in Hx. cbn [py_bytes].
  replace ((0 <=? x) && (x <? 256))%bool with true
    by (symmetry; apply andb_true_iff; split; [apply Z.leb_le | apply Z.ltb_lt]; lia).
  destruct (Byte.of_N (Z.to_N x)) as [b|] eqn:Hb.
  - exists (b :: bs). rewrite Hbs. split; [reflexivity|].
    cbn [map]. rewrite Hmap. unfold byte_val.
    apply Byte.to_of_N in Hb. rewrite Hb. f_equal. apply Z2N.id. lia.
  - apply Byte.of_N_None_iff in Hb. lia.
Qed.

Ltac byte_list :=
  repeat constructor; unfold byte_range; to_arith; zlia.

Ltac decode_after Hmap :=
  unfold decode_bytes; rewrite Hmap;
  cbv beta iota zeta delta [decode_load decode_read decode_write decode_add
                           LOAD_OP READ_OP WRITE_OP ADD_OP Z.eqb Pos.eqb];
  do 2 f_equal; to_arith; zlia.

(** Encoding then decoding keeps exactly the low-order bits of each field. *)
Lemma load_codec (const reg : Z) :
  exists bs, LoadInst_to_bytes const reg = Some bs /\ length bs = 5%nat /\
             decode_bytes bs = Some (LoadInst (const mod 2 ^ 25) (reg mod 32)).
Proof.
  unfold LoadInst_to_bytes, LOAD_OP; cbv zeta. change (Z.land 67 255) with 67.
  destruct (py_bytes_in_range
              [67; Z.land (Z.shiftr const 0) 255; Z.land (Z.shiftr const 8) 255;
               Z.land (Z.shiftr const 16) 255;
               Z.lor (Z.land (Z.shiftr const 24) 1) (Z.shiftl (Z.land reg 31) 1)])
    as [bs [Hbs Hmap]]; [byte_list|].
  exists bs. rewrite Hbs. split; [reflexivity|].
  split; [rewrite <- (length_map byte_val), Hmap; reflexivity|].
  decode_after Hmap.
Qed.

Lemma read_codec (src_reg offset dst_reg : Z) :
  exists bs, ReadInst_to_bytes src_reg offset dst_reg = Some bs /\ length bs = 4%nat /\
             decode_bytes bs = Some (ReadInst (src_reg mod 32) (offset mod 128) (dst_reg mod 32)).
Proof.
  unfold ReadInst_to_bytes, READ_OP; cbv zeta. change (Z.land 200 255) with 200.
  destruct (py_bytes_in_range
              [200;
               Z.lor (Z.shiftl (Z.land (Z.land src_reg 31) 31) 3)
                     (Z.land (Z.shiftr (Z.land offset 127) 4) 7);
               Z.lor (Z.shiftl (Z.land (Z.land offset 127) 15) 4)
                     (Z.land (Z.shiftr (Z.land dst_reg 31) 1) 15);
               Z.shiftl (Z.land (Z.land dst_reg 31) 1) 7])
    as [bs [Hbs Hmap]]; [byte_list|].
  exists bs. rewrite Hbs. split; [reflexivity|].
  split; [rewrite <- (length_map byte_val), Hmap; reflexivity|].
  decode_after Hmap.
Qed.

Lemma write_codec (src_reg dst_reg : Z) :
  exists bs, WriteInst_to_bytes src_reg dst_reg = Some bs /\ length bs = 3%nat /\
             decode_bytes bs = Some (WriteInst (src_reg mod 32) (dst_reg mod 32)).
Proof.
  unfold WriteInst_to_bytes, WRITE_OP; cbv zeta. change (Z.land 80 255) with 80.
  destruct (py_bytes_in_range
              [80;
               Z.lor (Z.shiftl (Z.land (Z.land src_reg 31) 31) 3)
                     (Z.land (Z.shiftr (Z.land dst_reg 31) 2) 7);
               Z.shiftl (Z.land (Z.land dst_reg 31) 3) 6])
    as [bs [Hbs Hmap]]; [byte_list|].
  exists bs. rewrite Hbs. split; [reflexivity|].
  split; [rewrite <- (length_map byte_val), Hmap; reflexivity|].
  decode_after Hmap.
Qed.

Lemma add_codec (src_reg addr addr_reg : Z) :
  exists bs, AddInst_to_bytes src_reg addr addr_reg = Some bs /\ length bs = 4%nat /\
             decode_bytes bs = Some (AddInst (src_reg mod 32) (addr mod 4096) (addr_reg mod 32)).
Proof.
  unfold AddInst_to_bytes, ADD_OP; cbv zeta. change (Z.land 178 255) with 178.
  destruct (py_bytes_in_range
              [178;
               Z.lor (Z.shiftl (Z.land (Z.land src_reg 31) 31) 3)
                     (Z.land (Z.shiftr (Z.land addr 4095) 9) 7);
               Z.land (Z.shiftr (Z.land addr 4095) 1) 255;
               Z.lor (Z.shiftl (Z.land (Z.land addr 4095) 1) 7)
                     (Z.shiftl (Z.land (Z.land addr_reg 31) 31) 2)])
    as [bs [Hbs Hmap]]; [byte_list|].
  exists bs. rewrite Hbs. split; [reflexivity|].
  split; [rewrite <- (length_map byte_val), Hmap; reflexivity|].
  decode_after Hmap.
Qed.

End Codec.

(* ------------------------------------------------------------------ *)
(** ** The interpreter of [vm.py] *)

Definition RAM_SIZE : Z := 1024.
Definition REG_COUNT : Z := 32.

(** The attributes of a [VM] object. [pc] only ever holds offsets into
    the program, so it is a [nat]. *)
Record VM := mkVM { ram : list Z; reg : list Z; pc : nat }.

(** [VM.__init__] *)
Definition VM_init : VM :=
  {| ram := repeat 0 (Z.to_nat RAM_SIZE); reg := repeat 0 (Z.to_nat REG_COUNT); pc := 0 |}.

(** The exceptions [execute] can raise: the [RuntimeError] of the
    opcode dispatch, the [RuntimeError]s of the address checks, and the
    [IndexError] of a Python list access out of range. *)
Inductive exn := IllegalInstruction | MemoryFault | IndexError.

(** State and exception monad: an exception leaves the object in the
    state it had when it was raised. *)
Definition M (A : Type) : Type := VM -> (exn + A) * VM.

Definition ret {A} (a : A) : M A := fun s => (inr a, s).
Definition bind {A B} (m : M A) (f : A -> M B) : M B :=
  fun s => match m s with
           | (inl e, s') => (inl e, s')
           | (inr a, s') => f a s'
           end.
Definition raise {A} (e : exn) : M A := fun s => (inl e, s).

Declare Scope vm_scope.
Notation "x <- m ;; k" := (bind m (fun x => k))
  (at level 61, m at next level, right associativity) : vm_scope.
Notation "m ;;; k" := (bind m (fun _ => k))
  (at level 61, right associativity) : vm_scope.
Open Scope vm_scope.

Definition get_pc : M nat := fun s => (inr (pc s), s).
Definition set_pc (p : nat) : M unit :=
  fun s => (inr tt, {| ram := ram s; reg := reg s; pc := p |}).

(** [self.reg[i]] *)
Definition get_reg (i : Z) : M Z :=
  fun s => match py_get (reg s) i with
           | Some v => (inr v, s)
           | None => (inl IndexError, s)
           end.

(** [self.ram[i]] *)
Definition get_ram (i : Z) : M Z :=
  fun s => match py_get (ram s) i with
           | Some v => (inr v, s)
           | None => (inl IndexError, s)
           end.

(** [self.reg[i] = v] *)
Definition set_reg (i v : Z) : M unit :=
  fun s => match py_set (reg s) i v with
           | Some l => (inr tt, {| ram := ram s; reg := l; pc := pc s |})
           | None => (inl IndexError, s)
           end.

(** [self.ram[i] = v] *)
Definition set_ram (i v : Z) : M unit :=
  fun s => match py_set (ram s) i v with
           | Some l => (inr tt, {| ram := l; reg := reg s; pc := pc s |})
           | None => (inl IndexError, s)
           end.

(** [program[i]] *)
Definition at_ (program : list byte) (i : nat) : Z := byte_val (nth i program Byte.x00).

Definition in_ram (addr : Z) : bool := (0 <=? addr) && (addr <? RAM_SIZE).

(** One iteration of the [while] loop of [VM.execute] (without the
    [steps] counter); only run when [self.pc < len(program)]. *)
Definition step (program : list byte) : M unit :=
  p <- get_pc ;;
  let n := length program in
  let b := at_ program in
  let opcode := b p in
  if (opcode =? 67) && (p + 4 <? n)%nat then
    let '(const, r) := decode_load (b p) (b (p + 1)%nat) (b (p + 2)%nat) (b (p + 3)%nat)
                                   (b (p + 4)%nat) in
    set_reg r const ;;;
    set_pc (p + 5)
  else if (opcode =? 200) && (p + 3 <? n)%nat then
    let '(src_reg, offset, dst_reg) :=
      decode_read (b p) (b (p + 1)%nat) (b (p + 2)%nat) (b (p + 3)%nat) in
    base <- get_reg src_reg ;;
    let addr := base + offset in
    if negb (in_ram addr) then raise MemoryFault else
    value <- get_ram addr ;;
    set_reg dst_reg value ;;;
    set_pc (p + 4)
  else if (opcode =? 80) && (p + 2 <? n)%nat then
    let '(src_reg, dst_reg) := decode_write (b p) (b (p + 1)%nat) (b (p + 2)%nat) in
    addr <- get_reg dst_reg ;;
    if negb (in_ram addr) then raise MemoryFault else
    v <- get_reg src_reg ;;
    set_ram addr v ;;;
    set_pc (p + 3)
  else if (opcode =? 178) && (p + 3 <? n)%nat then
    let '(src_reg, addr, addr_reg) :=
      decode_add (b p) (b (p + 1)%nat) (b (p + 2)%nat) (b (p + 3)%nat) in
    src_val <- get_reg src_reg ;;
    ra <- get_reg addr_reg ;;
    mem_val <- get_ram ra ;;
    let result := src_val + mem_val in
    if negb (in_ram addr) then raise MemoryFault else
    set_ram addr result ;;;
    set_pc (p + 4)
  else raise IllegalInstruction.

(** The [while self.pc < len(program)] loop with [fuel] iterations at
    most; it returns the final value of [steps], or [None] if the fuel
    ran out while [pc] was still inside the program. *)
Fixpoint loop (fuel : nat) (program : list byte) (steps : nat) : M (option nat) :=
  p <- get_pc ;;
  if (p <? length program)%nat then
    match fuel with
    | O => ret None
    | S f => step program ;;; loop f program (S steps)
    end
  else ret (Some steps).

(** [VM.execute]: [self.pc = 0], then the loop. One iteration per byte
    of the program is always enough fuel (see claim C8). *)
Definition execute (program : list byte) : M (option nat) :=
  set_pc 0 ;;; loop (length program) program 0.

(* ------------------------------------------------------------------ *)
(** ** Facts about one step *)

Ltac unfold_vm :=
  unfold step, bind, ret, raise, get_pc, set_pc, get_reg, get_ram, set_reg, set_ram in *.

Ltac split_matches H :=
  repeat match type of H with
         | context [match ?x with _ => _ end] =>
             lazymatch x with
             | context [match _ with _ => _ end] => fail
             | _ => destruct x eqn:?
             end
         end.

Ltac bool_facts :=
  repeat match goal with
         | H : (_ && _)%bool = true |- _ => apply andb_true_iff in H; destruct H
         | H : (_ <? _)%nat = true |- _ => apply Nat.ltb_lt in H
         | H : (_ <? _)%nat = false |- _ => apply Nat.ltb_ge in H
         | H : (_ =? _) = true |- _ => apply Z.eqb_eq in H
         | H : negb _ = false |- _ => apply negb_false_iff in H
         | H : in_ram _ = true |- _ => unfold in_ram, RAM_SIZE in H
         | H : (_ <=? _) = true |- _ => apply Z.leb_le in H
         | H : (_ <? _) = true |- _ => apply Z.ltb_lt in H
         end.

Lemma set_nth_length (l : list Z) (k : nat) (v : Z) : length (set_nth l k v) = length l.
Proof. revert k; induction l as [|x l IH]; intros [|k]; cbn; auto. Qed.

Lemma py_set_length (l l' : list Z) (i v : Z) : py_set l i v = Some l' -> length l' = length l.
Proof.
  unfold py_set. destruct (py_index (length l) i); intros H; inversion H.
  apply set_nth_length.
Qed.

Section StepFacts.

Variable program : list byte.

(** A failing step changes nothing: every check of [VM.execute] is made
    before the first assignment of its branch. *)
Lemma step_error_unchanged (s s' : VM) (e : exn) :
  step program s = (inl e, s') -> s' = s.
Proof.
  intros H. unfold_vm. cbv zeta in H. split_matches H; congruence.
Qed.


(** A successful step moves [pc] forward by the length of the format it
    decoded and touches neither the size of [reg] nor that of [ram]. *)
Lemma step_ok (s s' : VM) :
  step program s = (inr tt, s') ->
  (exists k, (3 <= k <= 5)%nat /\ pc s' = (pc s + k)%nat /\ (pc s' <= length program)%nat) /\
  length (reg s') = length (reg s) /\ length (ram s') = length (ram s).
Proof.
  intros H. unfold_vm. cbv zeta in H. split_matches H; try congruence;
    inversion H; subst; clear H; cbn [pc reg ram]; bool_facts;
    repeat match goal with
           | E : py_set _ _ _ = Some _ |- _ => apply py_set_length in E
           end;
    cbn [pc reg ram] in *;
    (split; [eexists; split; [|split; [reflexivity|]]; lia | auto]).
Qed.

End StepFacts.

(* ------------------------------------------------------------------ *)
(** ** Facts about the loop *)

Section LoopFacts.

Variable program : list byte.

(** Successful iterations of the loop body, from one state to another. *)
Inductive runs : VM -> VM -> Prop :=
| runs_refl s : runs s s
| runs_step s s1 s2 :
    (pc s < length program)%nat -> step program s = (inr tt, s1) -> runs s1 s2 -> runs s s2.

Lemma loop_unfold (f : nat) (n : nat) (s : VM) :
  loop f program n s =
  if (pc s <? length program)%nat then
    match f with
    | O => (inr None, s)
    | S f' => match step program s with
              | (inl e, s1) => (inl e, s1)
              | (inr _, s1) => loop f' program (S n) s1
              end
    end
  else (inr (Some n), s).
Proof.
  destruct f; cbn [loop]; unfold bind at 1, get_pc;
    destruct (pc s <? length program)%nat; reflexivity.
Qed.

(** With at least [len(program) - pc] iterations of fuel the loop leaves
    by its condition or by an exception, and counts one step per
    iteration. *)
Lemma loop_enough_fuel (f n : nat) (s : VM) :
  (length program <= pc s + f)%nat ->
  fst (loop f program n s) <> inr None /\
  (forall k, fst (loop f program n s) = inr (Some k) -> (k <= n + f)%nat).
Proof.
  revert n s; induction f as [|f IH]; intros n s Hf; rewrite loop_unfold.
  - destruct (Nat.ltb_spec (pc s) (length program)); [lia|].
    cbn [fst]; split; [congruence|]. intros k Hk; inversion Hk; lia.
  - destruct (pc s <? length program)%nat.
    + destruct (step program s) as [[e|[]] s1] eqn:Hs.
      * cbn [fst]; split; [congruence|]. intros k Hk; inversion Hk.
      * destruct (step_ok program s s1 Hs) as [[k [Hk [Hpc _]]] _].
        destruct (IH (S n) s1) as [IH1 IH2]; [lia|].
        split; [exact IH1|]. intros k' Hk'. specialize (IH2 k' Hk'). lia.
    + cbn [fst]; split; [congruence|]. intros k Hk; inversion Hk; lia.
Qed.

(** An exception leaves the state reached by the last completed
    iteration. *)
Lemma loop_error_state (f n : nat) (s s' : VM) (e : exn) :
  loop f program n s = (inl e, s') ->
  runs s s' /\ (pc s' < length program)%nat /\ step program s' = (inl e, s').
Proof.
  revert n s; induction f as [|f IH]; intros n s H; rewrite loop_unfold in H.
  - destruct (pc s <? length program)%nat; inversion H.
  - destruct (Nat.ltb_spec (pc s) (length program)); [|inversion H].
    destruct (step program s) as [[e'|[]] s1] eqn:Hs.
    + inversion H; subst.
      pose proof (step_error_unchanged program s s' e Hs); subst.
      split; [constructor|]. auto.
    + destruct (IH (S n) s1 H) as [Hr Hrest].
      split; [|exact Hrest]. econstructor; eauto.
Qed.

End LoopFacts.

Lemma execute_unfold (program : list byte) (s : VM) :
  execute program s =
  loop (length program) program 0 {| ram := ram s; reg := reg s; pc := 0 |}.
Proof. reflexivity. Qed.

(** Field values within the declared bit widths of each format. *)
Definition fields_in_width (i : Instruction) : Prop :=
  match i with
  | LoadInst const reg => 0 <= const < 2 ^ 25 /\ 0 <= reg < 32
  | ReadInst src_reg offset dst_reg => 0 <= src_reg < 32 /\ 0 <= offset < 128 /\ 0 <= dst_reg < 32
  | WriteInst src_reg dst_reg => 0 <= src_reg < 32 /\ 0 <= dst_reg < 32
  | AddInst src_reg addr addr_reg => 0 <= src_reg < 32 /\ 0 <= addr < 4096 /\ 0 <= addr_reg < 32
  end.

(* ------------------------------------------------------------------ *)
(** ** Claims *)

(** C1: for every variant and every field value within its bit width,
    decoding the bytes produced by the variant's encoder gives back the
    original fields: decode(encode(fields)) = fields. *)
Theorem decode_encode_roundtrip (i : Instruction) :
  fields_in_width i -> exists bs, to_bytes i = Some bs /\ decode_bytes bs = Some i.
Proof.
  destruct i as [c r | s o d | s d | s a r]; cbn [fields_in_width to_bytes]; intros Hw.
  - destruct (load_codec c r) as [bs [Hbs [_ Hdec]]]. exists bs. split; [exact Hbs|].
    rewrite Hdec, (Z.mod_small c), (Z.mod_small r); [reflexivity | lia | lia].
  - destruct (read_codec s o d) as [bs [Hbs [_ Hdec]]]. exists bs. split; [exact Hbs|].
    rewrite Hdec, (Z.mod_small s), (Z.mod_small o), (Z.mod_small d); [reflexivity | lia..].
  - destruct (write_codec s d) as [bs [Hbs [_ Hdec]]]. exists bs. split; [exact Hbs|].
    rewrite Hdec, (Z.mod_small s), (Z.mod_small d); [reflexivity | lia..].
  - destruct (add_codec s a r) as [bs [Hbs [_ Hdec]]]. exists bs. split; [exact Hbs|].
    rewrite Hdec, (Z.mod_small s), (Z.mod_small a), (Z.mod_small r); [reflexivity | lia..].
Qed.

Lemma decode_encode_roundtrip_witness :
  fields_in_width (AddInst 31 4095 7) /\
  exists bs, to_bytes (AddInst 31 4095 7) = Some bs /\ decode_bytes bs = Some (AddInst 31 4095 7).
Proof.
  split; [cbn; lia|]. apply decode_encode_roundtrip. cbn; lia.
Defined.

(** C3: when [execute] raises, the registers and memory are those left by
    the last completed instruction: the state was reached by successful
    iterations from the start, and the failing instruction changed
    nothing. In particular a WRITE whose target address [reg[dst_reg]] is
    outside [0, 1024) raises [MemoryFault] and changes nothing, wherever
    it stands in the program; a program that starts with such a WRITE
    (e.g. [WRITE R1,R2] with [reg[2] = 2000]) stops there with [ram] and
    [reg] untouched. *)
Theorem execute_error_state :
  (forall (program : list byte) (s s' : VM) (e : exn),
      execute program s = (inl e, s') ->
      runs program {| ram := ram s; reg := reg s; pc := 0 |} s' /\
      (pc s' < length program)%nat /\ step program s' = (inl e, s')) /\
  (forall (program : list byte) (s : VM) (src_reg dst_reg a : Z),
      (pc s + 2 < length program)%nat -> at_ program (pc s) = 80 ->
      decode_write (at_ program (pc s)) (at_ program (pc s + 1)) (at_ program (pc s + 2)) =
        (src_reg, dst_reg) ->
      py_get (reg s) dst_reg = Some a -> (a < 0 \/ 1024 <= a) ->
      step program s = (inl MemoryFault, s)) /\
  (forall (s : VM) (src_reg dst_reg a : Z) (bs rest : list byte),
      0 <= src_reg < 32 -> 0 <= dst_reg < 32 ->
      WriteInst_to_bytes src_reg dst_reg = Some bs ->
      py_get (reg s) dst_reg = Some a -> (a < 0 \/ 1024 <= a) ->
      exists s', execute (bs ++ rest) s = (inl MemoryFault, s') /\ ram s' = ram s /\ reg s' = reg s).
Proof.
  assert (Hstep : forall (program : list byte) (s : VM) (src_reg dst_reg a : Z),
      (pc s + 2 < length program)%nat -> at_ program (pc s) = 80 ->
      decode_write (at_ program (pc s)) (at_ program (pc s + 1)) (at_ program (pc s + 2)) =
        (src_reg, dst_reg) ->
      py_get (reg s) dst_reg = Some a -> (a < 0 \/ 1024 <= a) ->
      step program s = (inl MemoryFault, s)).
  { intros program s src_reg dst_reg a Hlen Hop Hdec Ha Hout.
    unfold step, bind at 1, get_pc. cbv zeta.
    rewrite Hdec, Hop. cbn [Z.eqb Pos.eqb andb].
    replace (pc s + 2 <? length program)%nat with true by (symmetry; apply Nat.ltb_lt; lia).
    cbv beta iota. unfold bind, get_reg. rewrite Ha.
    replace (in_ram a) with false
      by (symmetry; unfold in_ram, RAM_SIZE; apply andb_false_iff; destruct Hout;
          [left; apply Z.leb_gt | right; apply Z.ltb_ge]; lia).
    reflexivity. }
  split; [|split; [exact Hstep|]].
  - intros program s s' e H. rewrite execute_unfold in H.
    exact (loop_error_state program _ _ _ _ _ H).
  - intros s src_reg dst_reg a bs rest Hsr Hdr Hbs Ha Hout.
    destruct (write_codec src_reg dst_reg) as [bs' [Hbs' [Hlen Hdec]]].
    rewrite Hbs in Hbs'. injection Hbs' as <-.
    rewrite !Z.mod_small in Hdec by lia.
    destruct bs as [|x0 [|x1 [|x2 [|x3 bs]]]]; cbn [length] in Hlen; try discriminate.
    unfold decode_bytes in Hdec. cbn [map] in Hdec.
    destruct (byte_val x0 =? WRITE_OP) eqn:E; [|discriminate]. apply Z.eqb_eq in E.
    destruct (decode_write (byte_val x0) (byte_val x1) (byte_val x2)) as [sr dr] eqn:D.
    injection Hdec as <- <-.
    set (s0 := {| ram := ram s; reg := reg s; pc := 0 |}).
    exists s0. split; [|split; reflexivity].
    assert (Hs : step (x0 :: x1 :: x2 :: rest) s0 = (inl MemoryFault, s0))
      by (apply (Hstep _ _ sr dr a); [cbn; lia | exact E | exact D | exact Ha | exact Hout]).
    rewrite execute_unfold. fold s0. cbn [app]. rewrite loop_unfold.
    change (pc s0) with 0%nat. cbn [length Nat.ltb Nat.leb]. rewrite Hs. reflexivity.
Qed.

Lemma execute_error_state_witness :
  exists s', execute ([Byte.x50; Byte.x08; Byte.x80] ++ [])
               {| ram := repeat 0 1024; reg := [0; 7; 2000]; pc := 0 |} = (inl MemoryFault, s') /\
             ram s' = repeat 0 1024 /\ reg s' = [0; 7; 2000].
Proof.
  apply (proj2 (proj2 execute_error_state)
           {| ram := repeat 0 1024; reg := [0; 7; 2000]; pc := 0 |} 1 2 2000);
    [lia | lia | reflexivity | reflexivity | lia].
Defined.

(** C4: if the opcode byte at [pc] is none of 67, 200, 80, 178, or fewer
    bytes remain than its format needs (5, 4, 3, 4), the step raises
    [IllegalInstruction] and changes nothing; a program starting with
    byte 0x01 raises it before any instruction is executed, with the
    registers and memory as they were. *)
Theorem illegal_instruction :
  (forall (program : list byte) (s : VM),
      (pc s < length program)%nat ->
      let op := at_ program (pc s) in
      let rem := (length program - pc s)%nat in
      (~ In op [67; 200; 80; 178] \/ (op = 67 /\ (rem < 5)%nat) \/ (op = 200 /\ (rem < 4)%nat) \/
       (op = 80 /\ (rem < 3)%nat) \/ (op = 178 /\ (rem < 4)%nat)) ->
      step program s = (inl IllegalInstruction, s)) /\
  (forall (rest : list byte) (s : VM),
      execute (Byte.x01 :: rest) s =
      (inl IllegalInstruction, {| ram := ram s; reg := reg s; pc := 0 |})).
Proof.
  split.
  - intros program s Hpc op rem Hc.
    unfold step, bind at 1, get_pc. cbv zeta. fold op.
    assert (Hno : forall (c : Z) (m : nat),
               In c [67; 200; 80; 178] -> (length program - pc s <= m)%nat -> op = c ->
               ((op =? c) && (pc s + m <? length program)%nat)%bool = false).
    { intros c m _ Hk ->. rewrite Z.eqb_refl. cbn [andb]. apply Nat.ltb_ge. lia. }
    assert (Hoff : forall (c : Z) (m : nat), op <> c ->
               ((op =? c) && (pc s + m <? length program)%nat)%bool = false).
    { intros c m Hne. apply Z.eqb_neq in Hne. rewrite Hne. reflexivity. }
    assert (Hnot : forall c, In c [67; 200; 80; 178] -> ~ In op [67; 200; 80; 178] -> op <> c).
    { intros c Hin Hn ->. contradiction. }
    destruct Hc as [Hn | [[Ho Hr] | [[Ho Hr] | [[Ho Hr] | [Ho Hr]]]]].
    + rewrite !Hoff by (apply Hnot; [cbn; tauto | exact Hn]). reflexivity.
    + rewrite (Hno 67 4%nat) by (cbn; tauto || lia).
      rewrite !Hoff by (rewrite Ho; discriminate). reflexivity.
    + rewrite (Hoff 67) by (rewrite Ho; discriminate).
      rewrite (Hno 200 3%nat) by (cbn; tauto || lia).
      rewrite !Hoff by (rewrite Ho; discriminate). reflexivity.
    + rewrite (Hoff 67), (Hoff 200) by (rewrite Ho; discriminate).
      rewrite (Hno 80 2%nat) by (cbn; tauto || lia).
      rewrite !Hoff by (rewrite Ho; discriminate). reflexivity.
    + rewrite (Hoff 67), (Hoff 200), (Hoff 80) by (rewrite Ho; discriminate).
      rewrite (Hno 178 3%nat) by (cbn; tauto || lia). reflexivity.
  - intros rest s. reflexivity.
Qed.

Lemma illegal_instruction_witness :
  step [Byte.x43; Byte.x00; Byte.x00] VM_init = (inl IllegalInstruction, VM_init).
Proof.
  apply (proj1 illegal_instruction); cbn; [lia|].
  right; left. split; [reflexivity | lia].
Defined.

(** C8: a successful step moves [pc] forward by its format's length (at
    least 3) and never past the end of the program, so the loop stops,
    normally or by an exception, within [len(program)] iterations. *)
Theorem execute_terminates (program : list byte) (s : VM) :
  (forall t t', step program t = (inr tt, t') ->
     exists k, (3 <= k)%nat /\ pc t' = (pc t + k)%nat /\ (pc t' <= length program)%nat) /\
  fst (execute program s) <> inr None /\
  (forall k, fst (execute program s) = inr (Some k) -> (k <= length program)%nat).
Proof.
  split.
  - intros t t' H. destruct (step_ok program t t' H) as [[k [Hk [Hpc Hle]]] _].
    exists k. split; [lia | split; assumption].
  - rewrite execute_unfold. apply loop_enough_fuel. cbn [pc]. lia.
Qed.

(* ------------------------------------------------------------------ *)
(** ** Python list access and decoder ranges *)

Lemma nth_error_nth_Z (l : list Z) (k : nat) :
  (k < length l)%nat -> nth_error l k = Some (nth k l 0).
Proof.
  revert k; induction l as [|x l IH]; intros [|k] Hk; cbn in *; try lia; auto.
  apply IH; lia.
Qed.

Lemma py_get_nonneg (l : list Z) (i : Z) :
  0 <= i < Z.of_nat (length l) -> py_get l i = Some (nth (Z.to_nat i) l 0).
Proof.
  intros Hi. unfold py_get, py_index.
  replace ((0 <=? i) && (i <? Z.of_nat (length l)))%bool with true
    by (symmetry; apply andb_true_iff; split; [apply Z.leb_le | apply Z.ltb_lt]; lia).
  apply nth_error_nth_Z. lia.
Qed.

Lemma py_get_neg (l : list Z) (i : Z) :
  - Z.of_nat (length l) <= i < 0 ->
  py_get l i = Some (nth (Z.to_nat (Z.of_nat (length l) + i)) l 0).
Proof.
  intros Hi. unfold py_get, py_index.
  replace ((0 <=? i) && (i <? Z.of_nat (length l)))%bool with false
    by (symmetry; apply andb_false_iff; left; apply Z.leb_gt; lia).
  replace ((- Z.of_nat (length l) <=? i) && (i <? 0))%bool with true
    by (symmetry; apply andb_true_iff; split; [apply Z.leb_le | apply Z.ltb_lt]; lia).
  apply nth_error_nth_Z. lia.
Qed.

Lemma py_get_out (l : list Z) (i : Z) :
  i < - Z.of_nat (length l) \/ Z.of_nat (length l) <= i -> py_get l i = None.
Proof.
  intros Hi. unfold py_get, py_index.
  replace ((0 <=? i) && (i <? Z.of_nat (length l)))%bool with false
    by (symmetry; apply andb_false_iff; destruct Hi;
        [left; apply Z.leb_gt | right; apply Z.ltb_ge]; lia).
  replace ((- Z.of_nat (length l) <=? i) && (i <? 0))%bool with false
    by (symmetry; apply andb_false_iff; destruct Hi;
        [left; apply Z.leb_gt | right; apply Z.ltb_ge]; lia).
  reflexivity.
Qed.

Lemma py_set_nonneg (l : list Z) (i v : Z) :
  0 <= i < Z.of_nat (length l) -> py_set l i v = Some (set_nth l (Z.to_nat i) v).
Proof.
  intros Hi. unfold py_set, py_index.
  replace ((0 <=? i) && (i <? Z.of_nat (length l)))%bool with true
    by (symmetry; apply andb_true_iff; split; [apply Z.leb_le | apply Z.ltb_lt]; lia).
  reflexivity.
Qed.

Lemma byte_val_range (b : byte) : 0 <= byte_val b < 256.
Proof.
  unfold byte_val. pose proof (Byte.to_N_bounded b). lia.
Qed.

Lemma at_range (program : list byte) (i : nat) : 0 <= at_ program i < 256.
Proof. apply byte_val_range. Qed.

Section DecodeRanges.

Variables b0 b1 b2 b3 b4 : Z.

Lemma decode_load_range :
  0 <= b1 < 256 -> 0 <= b2 < 256 -> 0 <= b3 < 256 -> 0 <= b4 < 256 ->
  0 <= fst (decode_load b0 b1 b2 b3 b4) < 2 ^ 25 /\ 0 <= snd (decode_load b0 b1 b2 b3 b4) < 32.
Proof. intros. unfold decode_load; cbn [fst snd]. to_arith. split; zlia. Qed.

Lemma decode_read_range :
  0 <= b1 < 256 -> 0 <= b2 < 256 -> 0 <= b3 < 256 ->
  let '(src_reg, offset, dst_reg) := decode_read b0 b1 b2 b3 in
  0 <= src_reg < 32 /\ 0 <= offset < 128 /\ 0 <= dst_reg < 32.
Proof. intros. unfold decode_read. to_arith. zlia. Qed.

Lemma decode_write_range :
  0 <= b1 < 256 -> 0 <= b2 < 256 ->
  let '(src_reg, dst_reg) := decode_write b0 b1 b2 in 0 <= src_reg < 32 /\ 0 <= dst_reg < 32.
Proof. intros. unfold decode_write. to_arith. zlia. Qed.

Lemma decode_add_range :
  0 <= b1 < 256 -> 0 <= b2 < 256 -> 0 <= b3 < 256 ->
  let '(src_reg, addr, addr_reg) := decode_add b0 b1 b2 b3 in
  0 <= src_reg < 32 /\ 0 <= addr < 4096 /\ 0 <= addr_reg < 32.
Proof. intros. unfold decode_add. to_arith. zlia. Qed.

End DecodeRanges.

(* ------------------------------------------------------------------ *)
(** ** The ADD branch *)

Section AddBranch.

Variable program : list byte.
Variable s : VM.
Variables src_reg addr addr_reg : Z.

Let b := at_ program.

(** The ADD branch of [VM.execute], as the source orders it: both
    register reads and the memory read come before the check of the
    immediate destination. *)
Lemma step_add :
  (pc s + 3 < length program)%nat -> b (pc s) = 178 ->
  decode_add (b (pc s)) (b (pc s + 1)%nat) (b (pc s + 2)%nat) (b (pc s + 3)%nat) =
    (src_reg, addr, addr_reg) ->
  step program s =
  (src_val <- get_reg src_reg ;;
   ra <- get_reg addr_reg ;;
   mem_val <- get_ram ra ;;
   if negb (in_ram addr) then raise MemoryFault else
   set_ram addr (src_val + mem_val) ;;;
   set_pc (pc s + 4)) s.
Proof.
  intros Hlen Hop Hdec. unfold step, bind at 1, get_pc. cbv zeta.
  fold b. rewrite Hdec, Hop.
  replace (pc s + 3 <? length program)%nat with true by (symmetry; apply Nat.ltb_lt; lia).
  reflexivity.
Qed.

End AddBranch.

(** C2 (amended): when [reg[addr_reg]] is a valid index of [ram] (a
    Python index, so in [-1024, 1024)), an ADD whose immediate [addr] is
    outside [0, 1024) raises [MemoryFault] and writes nothing, and an ADD
    whose [addr] is inside stores [reg[src_reg] + ram[reg[addr_reg]]] into
    [ram[addr]]; when [reg[addr_reg]] is outside [-1024, 1024), the
    unchecked read [ram[reg[addr_reg]]] comes first and ADD raises
    [IndexError], writing nothing, whatever [addr] is. *)
Theorem add_store (program : list byte) (s : VM) (src_reg addr addr_reg sv rv : Z) :
  (pc s + 3 < length program)%nat -> at_ program (pc s) = 178 ->
  decode_add (at_ program (pc s)) (at_ program (pc s + 1)) (at_ program (pc s + 2))
             (at_ program (pc s + 3)) = (src_reg, addr, addr_reg) ->
  length (ram s) = 1024%nat ->
  py_get (reg s) src_reg = Some sv -> py_get (reg s) addr_reg = Some rv ->
  (-1024 <= rv < 1024 ->
   exists mv, py_get (ram s) rv = Some mv /\
   ((addr < 0 \/ 1024 <= addr) -> step program s = (inl MemoryFault, s)) /\
   (0 <= addr < 1024 ->
    step program s =
    (inr tt, {| ram := set_nth (ram s) (Z.to_nat addr) (sv + mv); reg := reg s; pc := pc s + 4 |}))) /\
  ((rv < -1024 \/ 1024 <= rv) -> step program s = (inl IndexError, s)).
Proof.
  intros Hlen Hop Hdec Hram Hsrc Har.
  rewrite (step_add program s src_reg addr addr_reg Hlen Hop Hdec).
  unfold bind, get_reg, get_ram. rewrite Hsrc, Har. split; intros Hrv.
  - destruct (py_get (ram s) rv) as [mv|] eqn:Hmem.
    2: { destruct (Z.neg_nonneg_cases rv).
         - rewrite py_get_neg in Hmem by (rewrite Hram; lia). discriminate.
         - rewrite py_get_nonneg in Hmem by (rewrite Hram; lia). discriminate. }
    exists mv. split; [reflexivity|]. unfold in_ram, RAM_SIZE.
    split; intros Ha.
    + replace ((0 <=? addr) && (addr <? 1024))%bool with false
        by (symmetry; apply andb_false_iff; destruct Ha;
            [left; apply Z.leb_gt | right; apply Z.ltb_ge]; lia).
      reflexivity.
    + replace ((0 <=? addr) && (addr <? 1024))%bool with true
        by (symmetry; apply andb_true_iff; split; [apply Z.leb_le | apply Z.ltb_lt]; lia).
      cbn [negb]. unfold set_ram. rewrite py_set_nonneg by lia. reflexivity.
  - rewrite (py_get_out (ram s) rv) by (rewrite Hram; lia). reflexivity.
Qed.

Definition add_demo_state : VM :=
  {| ram := 9 :: repeat 0 1023; reg := [4; 0]; pc := 0 |}.

Lemma add_store_witness :
  step [Byte.xb2; Byte.x00; Byte.x02; Byte.x04] add_demo_state =
  (inr tt, {| ram := set_nth (ram add_demo_state) 4 13; reg := [4; 0]; pc := 4 |}).
Proof.
  destruct (proj1 (add_store [Byte.xb2; Byte.x00; Byte.x02; Byte.x04] add_demo_state
                             0 4 1 4 0 ltac:(cbn; lia) eq_refl eq_refl eq_refl eq_refl eq_refl)
                  ltac:(lia)) as [mv [Hmv [_ Hin]]].
  vm_compute in Hmv. injection Hmv as <-.
  rewrite (Hin ltac:(lia)). reflexivity.
Defined.

(** C2, as stated, fails: [LOAD 5000,R1; ADD R0,2000,R1] from a fresh
    machine has an immediate [addr] of 2000, outside [0, 1024), yet
    raises [IndexError] from the unchecked read of [ram[5000]], not
    [MemoryFault]. *)
Lemma add_store_counterexample :
  match LoadInst_to_bytes 5000 1, AddInst_to_bytes 0 2000 1 with
  | Some l, Some a =>
      decode_add (at_ a 0) (at_ a 1) (at_ a 2) (at_ a 3) = (0, 2000, 1) /\
      fst (execute (l ++ a) VM_init) = inl IndexError
  | _, _ => False
  end.
Proof. vm_compute. split; reflexivity. Qed.

(** C10: the read [ram[reg[addr_reg]]] of ADD has no bounds check of its
    own and comes before the check of [addr]: a value of [reg[addr_reg]]
    in [-1024, -1] reads [ram[1024 + reg[addr_reg]]] and the instruction
    goes on; a value outside [-1024, 1024) raises [IndexError] (not
    [MemoryFault]) whatever [addr] is. *)
Theorem add_read_unchecked (program : list byte) (s : VM) (src_reg addr addr_reg rv : Z) :
  (pc s + 3 < length program)%nat -> at_ program (pc s) = 178 ->
  decode_add (at_ program (pc s)) (at_ program (pc s + 1)) (at_ program (pc s + 2))
             (at_ program (pc s + 3)) = (src_reg, addr, addr_reg) ->
  length (reg s) = 32%nat -> length (ram s) = 1024%nat ->
  py_get (reg s) addr_reg = Some rv ->
  (-1024 <= rv <= -1 ->
   step program s =
   if in_ram addr then
     (inr tt, {| ram := set_nth (ram s) (Z.to_nat addr)
                          (nth (Z.to_nat src_reg) (reg s) 0 + nth (Z.to_nat (1024 + rv)) (ram s) 0);
                 reg := reg s; pc := pc s + 4 |})
   else (inl MemoryFault, s)) /\
  ((rv < -1024 \/ 1024 <= rv) -> step program s = (inl IndexError, s)).
Proof.
  intros Hlen Hop Hdec Hreg Hram Har.
  pose proof (decode_add_range (at_ program (pc s)) (at_ program (pc s + 1))
                (at_ program (pc s + 2)) (at_ program (pc s + 3))
                (at_range _ _) (at_range _ _) (at_range _ _)) as Hr.
  rewrite Hdec in Hr. destruct Hr as [Hsrc [Haddr Har_r]].
  rewrite (step_add program s src_reg addr addr_reg Hlen Hop Hdec).
  unfold bind, get_reg, get_ram.
  rewrite (py_get_nonneg (reg s) src_reg) by lia. rewrite Har.
  split; intros Hrv.
  - rewrite (py_get_neg (ram s) rv) by lia. rewrite Hram.
    destruct (in_ram addr) eqn:Hin; cbn [negb].
    + unfold in_ram, RAM_SIZE in Hin. apply andb_true_iff in Hin.
      destruct Hin as [Hin1 Hin2]. apply Z.leb_le in Hin1. apply Z.ltb_lt in Hin2.
      unfold set_ram. rewrite py_set_nonneg by lia. reflexivity.
    + reflexivity.
  - rewrite (py_get_out (ram s) rv) by lia. reflexivity.
Qed.

Lemma add_read_unchecked_witness :
  step [Byte.xb2; Byte.x00; Byte.x02; Byte.x04]
       {| ram := repeat 0 1023 ++ [6]; reg := 3 :: (-1) :: repeat 0 30; pc := 0 |} =
  (inr tt, {| ram := set_nth (repeat 0 1023 ++ [6]) 4 9; reg := 3 :: (-1) :: repeat 0 30;
              pc := 4 |}).
Proof.
  apply (proj1 (add_read_unchecked [Byte.xb2; Byte.x00; Byte.x02; Byte.x04]
                  {| ram := repeat 0 1023 ++ [6]; reg := 3 :: (-1) :: repeat 0 30; pc := 0 |}
                  0 4 1 (-1) ltac:(cbn; lia) eq_refl eq_refl eq_refl eq_refl eq_refl)).
  lia.
Defined.

Ltac decode_facts :=
  repeat match goal with
         | E : decode_load ?b0 ?b1 ?b2 ?b3 ?b4 = (?c, ?r) |- _ =>
             let R := fresh "R" in
             pose proof (decode_load_range b0 b1 b2 b3 b4 (byte_val_range _) (byte_val_range _)
                           (byte_val_range _) (byte_val_range _)) as R;
             rewrite E in R; cbn [fst snd] in R; clear E
         | E : decode_read ?b0 ?b1 ?b2 ?b3 = _ |- _ =>
             let R := fresh "R" in
             pose proof (decode_read_range b0 b1 b2 b3 (byte_val_range _) (byte_val_range _)
                           (byte_val_range _)) as R;
             rewrite E in R; clear E
         | E : decode_write ?b0 ?b1 ?b2 = _ |- _ =>
             let R := fresh "R" in
             pose proof (decode_write_range b0 b1 b2 (byte_val_range _) (byte_val_range _)) as R;
             rewrite E in R; clear E
         end.

(** C9: whatever the bytes, the register indices the decoders produce are
    in [0, 31]; hence a step of a machine with 32 registers and 1024
    memory cells never accesses [reg] out of range (its only possible
    [IndexError] is the memory read of ADD), and keeps both sizes. *)
Theorem decoded_registers_in_range :
  (forall b0 b1 b2 b3 b4 : byte,
     let v := byte_val in
     0 <= snd (decode_load (v b0) (v b1) (v b2) (v b3) (v b4)) <= 31 /\
     (let '(src_reg, _, dst_reg) := decode_read (v b0) (v b1) (v b2) (v b3) in
      0 <= src_reg <= 31 /\ 0 <= dst_reg <= 31) /\
     (let '(src_reg, dst_reg) := decode_write (v b0) (v b1) (v b2) in
      0 <= src_reg <= 31 /\ 0 <= dst_reg <= 31) /\
     (let '(src_reg, _, addr_reg) := decode_add (v b0) (v b1) (v b2) (v b3) in
      0 <= src_reg <= 31 /\ 0 <= addr_reg <= 31)) /\
  (forall (program : list byte) (s : VM),
     length (reg s) = 32%nat -> length (ram s) = 1024%nat ->
     let '(r, s') := step program s in
     length (reg s') = 32%nat /\ length (ram s') = 1024%nat /\
     (r = inl IndexError ->
      at_ program (pc s) = 178 /\ (pc s + 3 < length program)%nat /\
      exists src_reg addr addr_reg rv,
        decode_add (at_ program (pc s)) (at_ program (pc s + 1)) (at_ program (pc s + 2))
                   (at_ program (pc s + 3)) = (src_reg, addr, addr_reg) /\
        py_get (reg s) addr_reg = Some rv /\ py_get (ram s) rv = None)).
Proof.
  split.
  - intros b0 b1 b2 b3 b4 v. subst v.
    pose proof (decode_load_range (byte_val b0) _ _ _ _ (byte_val_range b1) (byte_val_range b2)
                  (byte_val_range b3) (byte_val_range b4)) as Hl.
    pose proof (decode_read_range (byte_val b0) _ _ _ (byte_val_range b1) (byte_val_range b2)
                  (byte_val_range b3)) as Hr.
    pose proof (decode_write_range (byte_val b0) _ _ (byte_val_range b1) (byte_val_range b2)) as Hw.
    pose proof (decode_add_range (byte_val b0) _ _ _ (byte_val_range b1) (byte_val_range b2)
                  (byte_val_range b3)) as Ha.
    destruct (decode_read _ _ _ _) as [[? ?] ?].
    destruct (decode_write _ _ _) as [? ?].
    destruct (decode_add _ _ _ _) as [[? ?] ?].
    repeat split; lia.
  - intros program s Hreg Hram.
    destruct (step program s) as [r s'] eqn:Hs.
    destruct r as [e|[]].
    + pose proof (step_error_unchanged program s s' e Hs); subst s'.
      split; [exact Hreg | split; [exact Hram|]]. intros He; inversion He; subst e; clear He.
      unfold_vm. cbv zeta in Hs. split_matches Hs; try congruence;
        bool_facts; decode_facts;
        try match goal with
            | E : decode_add ?b0 ?b1 ?b2 ?b3 = _ |- _ =>
                let R := fresh "R" in
                pose proof (decode_add_range b0 b1 b2 b3 (byte_val_range _) (byte_val_range _)
                              (byte_val_range _)) as R;
                rewrite E in R
            end;
        repeat match goal with
               | E : py_get ?l ?i = None |- _ =>
                   rewrite py_get_nonneg in E by lia; discriminate E
               | E : py_set ?l ?i ?x = None |- _ =>
                   rewrite py_set_nonneg in E by lia; discriminate E
               end.
      split; [assumption | split; [assumption |]].
      eexists _, _, _, _. split; [first [reflexivity | eassumption] | split; eassumption].
    + destruct (step_ok program s s' Hs) as [_ [H1 H2]].
      split; [congruence | split; [congruence | discriminate]].
Qed.

Lemma decode_bytes_load (x0 x1 x2 x3 x4 : byte) (c r : Z) :
  decode_bytes [x0; x1; x2; x3; x4] = Some (LoadInst c r) ->
  byte_val x0 = 67 /\
  decode_load (byte_val x0) (byte_val x1) (byte_val x2) (byte_val x3) (byte_val x4) = (c, r).
Proof.
  unfold decode_bytes. cbn [map]. destruct (byte_val x0 =? LOAD_OP) eqn:Hop; [|discriminate].
  apply Z.eqb_eq in Hop. destruct (decode_load _ _ _ _ _) as [c' r'].
  intros H; inversion H; subst. split; [exact Hop | reflexivity].
Qed.

(** C5: for every integer [const], negative ones included, assembling
    [LOAD const,Rn], then decoding and executing it, sets [reg[n]] to
    [const mod 2^25], the low 25 bits of its two's complement; and in
    every variant an oversized field is cut down to its low-order bits
    by the encoder (which never fails) and decoded as such. *)
Theorem load_truncates (const n : Z) (s : VM) :
  0 <= n < 32 -> length (reg s) = 32%nat ->
  (exists bs, LoadInst_to_bytes const n = Some bs /\
     execute bs s =
     (inr (Some 1%nat),
      {| ram := ram s; reg := set_nth (reg s) (Z.to_nat n) (const mod 2 ^ 25); pc := 5 |})) /\
  (forall c r, exists bs, LoadInst_to_bytes c r = Some bs /\
     decode_bytes bs = Some (LoadInst (c mod 2 ^ 25) (r mod 32))) /\
  (forall sr o dr, exists bs, ReadInst_to_bytes sr o dr = Some bs /\
     decode_bytes bs = Some (ReadInst (sr mod 32) (o mod 128) (dr mod 32))) /\
  (forall sr dr, exists bs, WriteInst_to_bytes sr dr = Some bs /\
     decode_bytes bs = Some (WriteInst (sr mod 32) (dr mod 32))) /\
  (forall sr a ar, exists bs, AddInst_to_bytes sr a ar = Some bs /\
     decode_bytes bs = Some (AddInst (sr mod 32) (a mod 4096) (ar mod 32))).
Proof.
  intros Hn Hreg. split; [|split; [|split; [|split]]].
  - destruct (load_codec const n) as [bs [Hbs [Hlen Hdec]]].
    exists bs. split; [exact Hbs|].
    destruct bs as [|x0 [|x1 [|x2 [|x3 [|x4 [|x5 bs]]]]]]; try discriminate Hlen.
    rewrite (Z.mod_small n 32) in Hdec by lia.
    destruct (decode_bytes_load _ _ _ _ _ _ _ Hdec) as [Hop Hload].
    rewrite execute_unfold, loop_unfold. unfold step, bind at 1, get_pc, at_. cbv zeta.
    cbn [pc length nth Nat.add Nat.ltb Nat.leb]. rewrite Hload, Hop. cbn [Z.eqb andb Nat.ltb Nat.leb Pos.eqb].
    unfold bind, set_reg, set_pc. cbn [reg ram pc].
    rewrite py_set_nonneg by (rewrite Hreg; lia).
    rewrite loop_unfold. reflexivity.
  - intros c r. destruct (load_codec c r) as [bs [? [_ ?]]]. eauto.
  - intros sr o dr. destruct (read_codec sr o dr) as [bs [? [_ ?]]]. eauto.
  - intros sr dr. destruct (write_codec sr dr) as [bs [? [_ ?]]]. eauto.
  - intros sr a ar. destruct (add_codec sr a ar) as [bs [? [_ ?]]]. eauto.
Qed.

Lemma load_truncates_witness :
  exists bs, LoadInst_to_bytes (-1) 3 = Some bs /\
    execute bs VM_init =
    (inr (Some 1%nat),
     {| ram := ram VM_init; reg := set_nth (reg VM_init) 3 (2 ^ 25 - 1); pc := 5 |}).
Proof.
  apply (proj1 (load_truncates (-1) 3 VM_init ltac:(lia) eq_refl)).
Defined.

(* ------------------------------------------------------------------ *)
(** ** The assembler front end of [asm.py]

    Strings are modelled as lists of ASCII characters; [str.isspace],
    the regex class [\s], [\d], [str.upper] and [int] are written out for
    that alphabet. *)



(** [str.isspace] on ASCII: \t \n \v \f \r, the separators 0x1c-0x1f
    and the space. *)
Definition is_space (c : ascii) : bool :=
  let n := nat_of_ascii c in
  ((9 <=? n) && (n <=? 13))%nat || ((28 <=? n) && (n <=? 32))%nat.

Definition is_digit (c : ascii) : bool :=
  let n := nat_of_ascii c in ((48 <=? n) && (n <=? 57))%nat.

Definition digit_val (c : ascii) : Z := Z.of_nat (nat_of_ascii c) - 48.

Fixpoint lstrip (l : list ascii) : list ascii :=
  match l with
  | [] => []
  | c :: r => if is_space c then lstrip r else l
  end.

Definition rstrip (l : list ascii) : list ascii := rev (lstrip (rev l)).

(** [str.strip()] *)
Definition py_strip (l : list ascii) : list ascii := rstrip (lstrip l).

(** [int(...)] of a string of decimal digits. *)
Definition decimal (ds : list ascii) : Z :=
  fold_left (fun acc d => acc * 10 + digit_val d) ds 0.

(** [re.match(r"^R(\d+)$", s, re.IGNORECASE)]: [Some] of group 1. *)
Definition match_register (l : list ascii) : option (list ascii) :=
  match l with
  | c :: (_ :: _) as ds =>
      if (Ascii.eqb c "R" || Ascii.eqb c "r") && forallb is_digit ds then Some ds else None
  | _ => None
  end.

(** [parse_register]; [None] is the [ValueError] it raises. *)
Definition parse_register (reg_str : string) : option Z :=
  match match_register (py_strip (list_ascii_of_string reg_str)) with
  | None => None
  | Some ds =>
      let num := decimal ds in
      if (0 <=? num) && (num <=? 31) then Some num else None
  end.

Example parse_register_R07 : parse_register " R07 
" = Some 7.
Proof. reflexivity. Qed.

Section Strip.

Definition spaces (l : list ascii) : Prop := Forall (fun c => is_space c = true) l.

Lemma lstrip_spaces (pre x : list ascii) : spaces pre -> lstrip (pre ++ x) = lstrip x.
Proof. induction 1 as [|c pre Hc _ IH]; cbn; [reflexivity|]. rewrite Hc. exact IH. Qed.

Lemma lstrip_keep (c : ascii) (r : list ascii) : is_space c = false -> lstrip (c :: r) = c :: r.
Proof. intros H; cbn; rewrite H; reflexivity. Qed.

Lemma lstrip_split (l : list ascii) : exists pre, l = pre ++ lstrip l /\ spaces pre.
Proof.
  induction l as [|c r [pre [Hr Hpre]]]; [exists []; split; [reflexivity | constructor]|].
  cbn. destruct (is_space c) eqn:Hc.
  - exists (c :: pre). split; [cbn; congruence | constructor; assumption].
  - exists []. split; [reflexivity | constructor].
Qed.



End Strip.


(** [str.upper] on ASCII. *)
Definition upper_char (c : ascii) : ascii :=
  let n := nat_of_ascii c in
  if ((97 <=? n) && (n <=? 122))%nat then ascii_of_nat (n - 32) else c.

(** [s.split(sep)] for a one-character separator. *)
Fixpoint split_on (sep : ascii) (l : list ascii) : list (list ascii) :=
  match l with
  | [] => [[]]
  | c :: r =>
      if Ascii.eqb c sep then [] :: split_on sep r
      else match split_on sep r with
           | w :: ws => (c :: w) :: ws
           | [] => [[c]]
           end
  end.

(** [re.split(r"\s+", s, maxsplit=1)]: the text before the first run of
    whitespace and, if there is one, the text after the whole run. *)
Fixpoint break_space (l : list ascii) : list ascii * option (list ascii) :=
  match l with
  | [] => ([], None)
  | c :: r =>
      if is_space c then ([], Some (lstrip r))
      else let '(w, rest) := break_space r in (c :: w, rest)
  end.

Definition re_split_ws1 (l : list ascii) : list (list ascii) :=
  match break_space l with
  | (w, None) => [w]
  | (w, Some r) => [w; r]
  end.

(** [str.isdigit]-and-underscore grammar of [int()]: digits, single
    underscores allowed between two digits. *)
Fixpoint underscores_ok (prev_us : bool) (l : list ascii) : bool :=
  match l with
  | [] => negb prev_us
  | c :: r =>
      if is_digit c then underscores_ok false r
      else if Ascii.eqb c "_" && negb prev_us then underscores_ok true r
      else false
  end.

(** [int(s)] in base 10; [None] is its [ValueError]. *)
Definition py_int (l : list ascii) : option Z :=
  let t := py_strip l in
  let '(sign, body) :=
    match t with
    | c :: r => if Ascii.eqb c "-" then (-1, r) else if Ascii.eqb c "+" then (1, r) else (1, t)
    | [] => (1, t)
    end in
  match body with
  | c :: r =>
      if is_digit c && underscores_ok false r then Some (sign * decimal (filter is_digit body))
      else None
  | [] => None
  end.

Definition lstr (s : string) : list ascii := list_ascii_of_string s.
Definition is_word (w : list ascii) (s : string) : bool :=
  if list_eq_dec ascii_dec w (lstr s) then true else false.

(** The [ValueError]s raised by [parse_line] (bad arity, bad register,
    bad integer, unknown mnemonic). *)
Inductive asm_error := ValueError.

Definition parse_register_l (l : list ascii) : asm_error + Z :=
  match parse_register (string_of_list_ascii l) with Some n => inr n | None => inl ValueError end.

Definition py_int_l (l : list ascii) : asm_error + Z :=
  match py_int l with Some n => inr n | None => inl ValueError end.

(** [parse_line]: [inr None] for a blank or comment line. *)
Definition parse_line (line : string) : asm_error + option Instruction :=
  let l := py_strip (lstr line) in
  match l with
  | [] => inr None
  | c :: _ =>
      if Ascii.eqb c ";" then inr None else
      let parts := re_split_ws1 l in
      let mnemo := map upper_char (nth 0 parts []) in
      let args_str := if (1 <? length parts)%nat then nth 1 parts [] else [] in
      let args_str := py_strip (nth 0 (split_on ";" args_str) []) in
      let args := match args_str with [] => [] | _ => map py_strip (split_on "," args_str) end in
      let arg i := nth i args [] in
      if is_word mnemo "LOAD" then
        if negb (length args =? 2)%nat then inl ValueError else
        match py_int_l (arg 0%nat), parse_register_l (arg 1%nat) with
        | inr const, inr reg => inr (Some (LoadInst const reg))
        | _, _ => inl ValueError
        end
      else if is_word mnemo "READ" then
        if negb (length args =? 3)%nat then inl ValueError else
        match parse_register_l (arg 0%nat), py_int_l (arg 1%nat), parse_register_l (arg 2%nat) with
        | inr rsrc, inr offset, inr rdst => inr (Some (ReadInst rsrc offset rdst))
        | _, _, _ => inl ValueError
        end
      else if is_word mnemo "WRITE" then
        if negb (length args =? 2)%nat then inl ValueError else
        match parse_register_l (arg 0%nat), parse_register_l (arg 1%nat) with
        | inr rsrc, inr rdst => inr (Some (WriteInst rsrc rdst))
        | _, _ => inl ValueError
        end
      else if is_word mnemo "ADD" then
        if negb (length args =? 3)%nat then inl ValueError else
        match parse_register_l (arg 0%nat), py_int_l (arg 1%nat), parse_register_l (arg 2%nat) with
        | inr rsrc, inr addr, inr raddr => inr (Some (AddInst rsrc addr raddr))
        | _, _, _ => inl ValueError
        end
      else inl ValueError
  end.

(** The loop of [asm.main] over the source lines: the first error aborts
    the whole assembly. *)
Fixpoint parse_lines (lines : list string) : option (list Instruction) :=
  match lines with
  | [] => Some []
  | line :: rest =>
      match parse_line line with
      | inl _ => None
      | inr None => parse_lines rest
      | inr (Some i) => option_map (cons i) (parse_lines rest)
      end
  end.

(** [b"".join(instr.to_bytes() for instr in instructions)] *)
Fixpoint join_bytes (instrs : list Instruction) : option (list byte) :=
  match instrs with
  | [] => Some []
  | i :: rest =>
      match to_bytes i, join_bytes rest with
      | Some b, Some bs => Some (b ++ bs)
      | _, _ => None
      end
  end.

Definition assemble (lines : list string) : option (list byte) :=
  match parse_lines lines with
  | Some instrs => join_bytes instrs
  | None => None
  end.

Example parse_line_load : parse_line "  load 10 , r1 ; comment" = inr (Some (LoadInst 10 1)).
Proof. reflexivity. Qed.

Example parse_line_arity : parse_line "LOAD 5" = inl ValueError.
Proof. reflexivity. Qed.

Example parse_line_neg : parse_line "LOAD -1_0,R3" = inr (Some (LoadInst (-10) 3)).
Proof. reflexivity. Qed.

Definition scenario1 : list string := ["LOAD 10,R1"%string; "LOAD 5,R2"%string; "WRITE R1,R2"%string].

(** C7: assembling [LOAD 10,R1; LOAD 5,R2; WRITE R1,R2] and executing it
    on a fresh machine ends normally after three instructions with
    [ram[5] = 10]: WRITE takes its address from [reg[2] = 5] and its
    value from [reg[1] = 10]. *)
Theorem scenario1_write :
  exists bs s', assemble scenario1 = Some bs /\
    execute bs VM_init = (inr (Some 3%nat), s') /\
    py_get (reg s') 1 = Some 10 /\ py_get (reg s') 2 = Some 5 /\
    py_get (ram s') 5 = Some 10.
Proof.
  exists (match assemble scenario1 with Some bs => bs | None => [] end).
  exists (snd (execute (match assemble scenario1 with Some bs => bs | None => [] end) VM_init)).
  vm_compute. repeat split; reflexivity.
Qed.

(* ------------------------------------------------------------------ *)
(** ** Further properties of the interpreter and the assembler *)

Open Scope Z_scope.

Lemma py_index_lt (n : nat) (i : Z) (k : nat) : py_index n i = Some k -> (k < n)%nat.
Proof.
  unfold py_index. destruct ((0 <=? i) && (i <? Z.of_nat n))%bool eqn:H1.
  - intros E; inversion E; subst. bool_facts. lia.
  - destruct ((- Z.of_nat n <=? i) && (i <? 0))%bool eqn:H2; [|discriminate].
    intros E; inversion E; subst. bool_facts. lia.
Qed.

Lemma py_set_some (l l' : list Z) (i v : Z) :
  py_set l i v = Some l' -> exists k, (k < length l)%nat /\ l' = set_nth l k v.
Proof.
  unfold py_set. destruct (py_index (length l) i) as [k|] eqn:E; [|discriminate].
  intros H; inversion H; subst. exists k. split; [eapply py_index_lt; eauto | reflexivity].
Qed.

Lemma py_get_in (l : list Z) (i v : Z) : py_get l i = Some v -> In v l.
Proof.
  unfold py_get. destruct (py_index (length l) i); [|discriminate]. apply nth_error_In.
Qed.

Lemma set_nth_Forall (P : Z -> Prop) (l : list Z) (k : nat) (v : Z) :
  Forall P l -> P v -> Forall P (set_nth l k v).
Proof.
  intros Hl Hv. revert k; induction Hl as [|x l Hx Hl IH]; intros [|k]; cbn; constructor; auto.
Qed.

(** X1: a successful step of [execute] assigns exactly one list cell: LOAD
    and READ one register (memory unchanged), WRITE and ADD one memory cell
    (registers unchanged). *)
Theorem step_writes_one (program : list byte) (s s' : VM) :
  step program s = (inr tt, s') ->
  ((at_ program (pc s) = 67 \/ at_ program (pc s) = 200) /\ ram s' = ram s /\
   exists k v, (k < length (reg s))%nat /\ reg s' = set_nth (reg s) k v) \/
  ((at_ program (pc s) = 80 \/ at_ program (pc s) = 178) /\ reg s' = reg s /\
   exists k v, (k < length (ram s))%nat /\ ram s' = set_nth (ram s) k v).
Proof.
  intros H. unfold_vm. cbv zeta in H. split_matches H; try congruence;
    inversion H; subst; clear H; cbn [pc reg ram] in *; bool_facts;
    repeat match goal with
           | E : py_set _ _ _ = Some _ |- _ => apply py_set_some in E; destruct E as [? [? ?]]
           end; subst;
    [left | left | right | right]; (split; [tauto | split; [reflexivity | eauto]]).
Qed.

Section Invariant.

Variable program : list byte.
Variable P : VM -> Prop.
Hypothesis P_step : forall t t', step program t = (inr tt, t') -> P t -> P t'.

Lemma loop_invariant (f n : nat) (s : VM) : P s -> P (snd (loop f program n s)).
Proof.
  revert n s; induction f as [|f IH]; intros n s Hs; rewrite loop_unfold.
  - destruct (pc s <? length program)%nat; exact Hs.
  - destruct (pc s <? length program)%nat; [|exact Hs].
    destruct (step program s) as [[e|[]] s1] eqn:Hst.
    + cbn [snd]. rewrite (step_error_unchanged program s s1 e Hst). exact Hs.
    + apply IH. eapply P_step; eauto.
Qed.

End Invariant.

Definition all_nonneg (s : VM) : Prop :=
  Forall (fun v => 0 <= v) (reg s) /\ Forall (fun v => 0 <= v) (ram s).

Lemma step_nonneg (program : list byte) (t t' : VM) :
  step program t = (inr tt, t') -> all_nonneg t -> all_nonneg t'.
Proof.
  intros H [Hr Hm]. unfold_vm. cbv zeta in H. split_matches H; try congruence;
    inversion H; subst; clear H; unfold all_nonneg; cbn [pc reg ram] in *;
    repeat match goal with
           | E : py_set _ _ _ = Some _ |- _ => apply py_set_some in E; destruct E as [? [? ?]]; subst
           | E : py_get _ _ = Some _ |- _ => apply py_get_in in E
           end;
    (split; [|]); try assumption; apply set_nth_Forall; try assumption;
    rewrite Forall_forall in Hr, Hm; try (apply Hr; assumption); try (apply Hm; assumption).
  - match goal with
    | E : decode_load ?b0 ?b1 ?b2 ?b3 ?b4 = (_, _) |- _ =>
        pose proof (decode_load_range b0 b1 b2 b3 b4 (at_range _ _) (at_range _ _)
                      (at_range _ _) (at_range _ _)) as R; rewrite E in R; cbn [fst] in R
    end; lia.
  - match goal with
    | H1 : In ?a (reg _), H2 : In ?b (ram _) |- 0 <= ?a + ?b => specialize (Hr _ H1); specialize (Hm _ H2)
    end; lia.
Qed.

(** X2: if every register and memory cell holds a non-negative value before
    [execute], they all still do afterwards, whatever the program and
    however it ends. *)
Theorem execute_nonneg (program : list byte) (s : VM) :
  all_nonneg s -> all_nonneg (snd (execute program s)).
Proof.
  intros Hs. rewrite execute_unfold. apply loop_invariant; [apply step_nonneg | exact Hs].
Qed.

(** X3: [execute] keeps 32 registers and 1024 memory cells: no assignment of
    the interpreter grows or shrinks a list. *)
Theorem execute_sizes (program : list byte) (s : VM) :
  length (reg s) = 32%nat -> length (ram s) = 1024%nat ->
  length (reg (snd (execute program s))) = 32%nat /\ length (ram (snd (execute program s))) = 1024%nat.
Proof.
  intros Hr Hm. rewrite execute_unfold.
  apply (loop_invariant program (fun t => length (reg t) = 32%nat /\ length (ram t) = 1024%nat)).
  - intros t t' H [H1 H2]. destruct (step_ok program t t' H) as [_ [E1 E2]]. split; congruence.
  - split; assumption.
Qed.

Lemma loop_normal_end (program : list byte) (f n k : nat) (s s' : VM) :
  (pc s <= length program)%nat ->
  loop f program n s = (inr (Some k), s') ->
  pc s' = length program /\ (n <= k)%nat /\
  (3 * (k - n) <= length program - pc s <= 5 * (k - n))%nat.
Proof.
  revert n s; induction f as [|f IH]; intros n s Hle H; rewrite loop_unfold in H.
  - destruct (Nat.ltb_spec (pc s) (length program)); inversion H; subst. lia.
  - destruct (Nat.ltb_spec (pc s) (length program)).
    + destruct (step program s) as [[e|[]] s1] eqn:Hs; [discriminate|].
      destruct (step_ok program s s1 Hs) as [[j [Hj [Hpc Hle1]]] _].
      destruct (IH (S n) s1 Hle1 H) as [A [B C]]. lia.
    + inversion H; subst. lia.
Qed.

Lemma execute_end (program : list byte) (s s' : VM) (k : nat) :
  execute program s = (inr (Some k), s') ->
  pc s' = length program /\ (3 * k <= length program <= 5 * k)%nat.
Proof.
  intros H. rewrite execute_unfold in H.
  apply loop_normal_end in H; [|cbn [pc]; lia].
  destruct H as [A [_ C]]. cbn [pc] in C. split; [exact A | lia].
Qed.

Lemma at_app_l (p1 p2 : list byte) (i : nat) :
  (i < length p1)%nat -> at_ (p1 ++ p2) i = at_ p1 i.
Proof. intros H. unfold at_. rewrite app_nth1 by exact H. reflexivity. Qed.

Lemma at_app_r (p1 p2 : list byte) (i : nat) : at_ (p1 ++ p2) (length p1 + i) = at_ p2 i.
Proof. unfold at_. rewrite app_nth2 by lia. f_equal. f_equal. lia. Qed.

Lemma at_out (p : list byte) (i : nat) : (length p <= i)%nat -> at_ p i = 0.
Proof. intros H. unfold at_. rewrite nth_overflow by exact H. reflexivity. Qed.

Ltac op_case op c :=
  let E := fresh "E" in
  destruct (Z.eq_dec op c) as [E|E];
  [rewrite E in *; cbn [Z.eqb Pos.eqb andb] in *
  |rewrite (proj2 (Z.eqb_neq op c) E) in *; cbn [andb] in *].

Ltac len_branch p1 p2 t m H :=
  let L := fresh "L" in
  destruct (Nat.ltb_spec (pc t + m)%nat (length p1)) as [L|L];
  [ rewrite (proj2 (Nat.ltb_lt (pc t + m)%nat (length p1 + length p2)) ltac:(lia));
    cbn [andb] in *; rewrite ?at_app_l by lia; rewrite <- H; reflexivity
  | cbn [Z.eqb Pos.eqb andb] in H;
    unfold raise in H; discriminate ].

Lemma step_prefix (p1 p2 : list byte) (t t' : VM) :
  step p1 t = (inr tt, t') -> step (p1 ++ p2) t = (inr tt, t').
Proof.
  intros H. unfold step, bind at 1, get_pc in H. unfold step, bind at 1, get_pc. cbv zeta in *.
  destruct (Nat.ltb_spec (pc t) (length p1)) as [Hp|Hp].
  2: { rewrite (at_out p1 (pc t) Hp) in H. cbn [Z.eqb Pos.eqb andb] in H.
       unfold raise in H; discriminate. }
  rewrite (at_app_l p1 p2 (pc t) Hp).
  rewrite length_app.
  op_case (at_ p1 (pc t)) 67; [len_branch p1 p2 t 4%nat H |].
  op_case (at_ p1 (pc t)) 200; [len_branch p1 p2 t 3%nat H |].
  op_case (at_ p1 (pc t)) 80; [len_branch p1 p2 t 2%nat H |].
  op_case (at_ p1 (pc t)) 178; [len_branch p1 p2 t 3%nat H |].
  unfold raise in H; discriminate.
Qed.

Definition shift (n : nat) (t : VM) : VM := {| ram := ram t; reg := reg t; pc := n + pc t |}.

Lemma ltb_add_l (n a b : nat) : (n + a <? n + b)%nat = (a <? b)%nat.
Proof. destruct (Nat.ltb_spec a b); destruct (Nat.ltb_spec (n + a) (n + b)); lia. Qed.

Lemma step_shift (p1 p2 : list byte) (t : VM) :
  step (p1 ++ p2) (shift (length p1) t) =
  let '(r, t') := step p2 t in (r, shift (length p1) t').
Proof.
  unfold_vm. unfold shift. cbv beta iota zeta. cbn [pc reg ram].
  rewrite <- !Nat.add_assoc, !at_app_r, length_app, !ltb_add_l.
  repeat match goal with
         | |- context [match ?x with _ => _ end] =>
             lazymatch x with
             | context [match _ with _ => _ end] => fail
             | _ => destruct x eqn:?; cbn [pc reg ram]
             end
         end; reflexivity.
Qed.

Section LoopCompose.

Lemma loop_fuel (p : list byte) (f1 f2 n : nat) (s : VM) :
  (length p - pc s <= f1)%nat -> (length p - pc s <= f2)%nat ->
  loop f1 p n s = loop f2 p n s.
Proof.
  revert f2 n s; induction f1 as [|f1 IH]; intros f2 n s H1 H2;
    rewrite !(loop_unfold p _ n s).
  - destruct (Nat.ltb_spec (pc s) (length p)); [lia | reflexivity].
  - destruct (Nat.ltb_spec (pc s) (length p)); [|reflexivity].
    destruct f2 as [|f2]; [lia|].
    destruct (step p s) as [[e|[]] s1] eqn:Hs; [reflexivity|].
    destruct (step_ok p s s1 Hs) as [[j [Hj [Hpc _]]] _].
    apply IH; lia.
Qed.

Definition add_steps (n : nat) (r : exn + option nat) : exn + option nat :=
  match r with
  | inr (Some k) => inr (Some (n + k)%nat)
  | _ => r
  end.

Lemma loop_steps (p : list byte) (f n m : nat) (s : VM) :
  loop f p (n + m) s = let '(r, t) := loop f p m s in (add_steps n r, t).
Proof.
  revert m s; induction f as [|f IH]; intros m s; rewrite !(loop_unfold p _ _ s).
  - destruct (pc s <? length p)%nat; reflexivity.
  - destruct (pc s <? length p)%nat; [|reflexivity].
    destruct (step p s) as [[e|[]] s1]; [reflexivity|].
    rewrite <- Nat.add_succ_r. apply IH.
Qed.

Lemma loop_steps_ge (p : list byte) (f n k : nat) (s s' : VM) :
  loop f p n s = (inr (Some k), s') -> (n <= k)%nat.
Proof.
  revert n s; induction f as [|f IH]; intros n s H; rewrite loop_unfold in H.
  - destruct (pc s <? length p)%nat; inversion H; lia.
  - destruct (pc s <? length p)%nat; [|inversion H; lia].
    destruct (step p s) as [[e|[]] s1]; [discriminate|].
    apply IH in H. lia.
Qed.

Lemma loop_prefix (p1 p2 : list byte) (f g n k : nat) (s s1 : VM) :
  loop f p1 n s = (inr (Some k), s1) -> (f <= g)%nat ->
  loop g (p1 ++ p2) n s = loop (g - (k - n)) (p1 ++ p2) k s1.
Proof.
  revert g n s; induction f as [|f IH]; intros g n s H Hg.
  - rewrite loop_unfold in H. destruct (pc s <? length p1)%nat; inversion H; subst.
    rewrite Nat.sub_diag, Nat.sub_0_r. reflexivity.
  - pose proof (loop_steps_ge _ _ _ _ _ _ H) as Hk.
    rewrite loop_unfold in H. destruct (Nat.ltb_spec (pc s) (length p1)) as [Hp|Hp].
    + destruct (step p1 s) as [[e|[]] t] eqn:Hs; [discriminate|].
      pose proof (loop_steps_ge _ _ _ _ _ _ H) as Hk'.
      destruct g as [|g]; [lia|].
      rewrite (loop_unfold (p1 ++ p2) (S g)).
      rewrite length_app.
      replace (pc s <? length p1 + length p2)%nat with true
        by (symmetry; apply Nat.ltb_lt; lia).
      rewrite (step_prefix p1 p2 s t Hs).
      rewrite (IH g (S n) t H) by lia.
      f_equal. lia.
    + inversion H; subst. rewrite Nat.sub_diag, Nat.sub_0_r. reflexivity.
Qed.

Lemma loop_shift (p1 p2 : list byte) (f n : nat) (t : VM) :
  loop f (p1 ++ p2) n (shift (length p1) t) =
  let '(r, t') := loop f p2 n t in (r, shift (length p1) t').
Proof.
  revert n t; induction f as [|f IH]; intros n t; rewrite !(loop_unfold _ _ _ (shift _ t)), !(loop_unfold p2).
  - cbn [shift pc]. rewrite length_app, ltb_add_l.
    destruct (pc t <? length p2)%nat; reflexivity.
  - change (pc (shift (length p1) t)) with (length p1 + pc t)%nat.
    rewrite length_app, ltb_add_l.
    destruct (pc t <? length p2)%nat; [|reflexivity].
    rewrite step_shift. destruct (step p2 t) as [[e|[]] t1]; [reflexivity|].
    apply IH.
Qed.

End LoopCompose.

Lemma execute_seq (p1 p2 : list byte) (s s1 : VM) (k1 : nat) :
  execute p1 s = (inr (Some k1), s1) ->
  execute (p1 ++ p2) s =
  let '(r, s2) := execute p2 s1 in
  (match r with inr (Some k2) => inr (Some (k1 + k2)%nat) | _ => r end,
   {| ram := ram s2; reg := reg s2; pc := length p1 + pc s2 |}).
Proof.
  intros H. destruct (execute_end p1 s s1 k1 H) as [Hpc Hk].
  rewrite execute_unfold in H. rewrite !execute_unfold.
  rewrite (loop_prefix p1 p2 _ _ _ _ _ _ H) by (rewrite length_app; lia).
  set (s1' := {| ram := ram s1; reg := reg s1; pc := 0 |}).
  replace s1 with (shift (length p1) s1') at 1
    by (destruct s1; cbn in *; unfold shift; cbn; f_equal; lia).
  rewrite loop_shift, length_app, Nat.sub_0_r.
  rewrite (loop_fuel p2 _ (length p2)) by (cbn; lia).
  rewrite <- (Nat.add_0_r k1) at 1. rewrite loop_steps.
  destruct (loop (length p2) p2 0 s1') as [[e|[k2|]] t]; reflexivity.
Qed.

(** X4: when [execute] returns [k] steps, [pc] is exactly the program length
    and the program has between [3k] and [5k] bytes. *)
Theorem execute_normal_end (program : list byte) (s s' : VM) (k : nat) :
  execute program s = (inr (Some k), s') ->
  pc s' = length program /\ (3 * k <= length program <= 5 * k)%nat.
Proof. apply execute_end. Qed.

(** X5: if [p1] runs to its end in [k1] steps, running [p1 ++ p2] is running
    [p2] from the state [p1] left, with [pc] shifted by [len(p1)] and [k1]
    added to a normal step count. *)
Theorem execute_app (p1 p2 : list byte) (s s1 : VM) (k1 : nat) :
  execute p1 s = (inr (Some k1), s1) ->
  execute (p1 ++ p2) s =
  let '(r, s2) := execute p2 s1 in
  (match r with inr (Some k2) => inr (Some (k1 + k2)%nat) | _ => r end,
   {| ram := ram s2; reg := reg s2; pc := length p1 + pc s2 |}).
Proof. apply execute_seq. Qed.

Section Branches.

Variable program : list byte.
Variable s : VM.

Let b := at_ program.

Lemma step_read (src_reg offset dst_reg : Z) :
  (pc s + 3 < length program)%nat -> b (pc s) = 200 ->
  decode_read (b (pc s)) (b (pc s + 1)%nat) (b (pc s + 2)%nat) (b (pc s + 3)%nat) =
    (src_reg, offset, dst_reg) ->
  step program s =
  (base <- get_reg src_reg ;;
   if negb (in_ram (base + offset)) then raise MemoryFault else
   value <- get_ram (base + offset) ;;
   set_reg dst_reg value ;;;
   set_pc (pc s + 4)) s.
Proof.
  intros Hlen Hop Hdec. unfold step, bind at 1, get_pc. cbv zeta.
  fold b. rewrite Hdec, Hop. cbn [Z.eqb Pos.eqb andb].
  replace (pc s + 3 <? length program)%nat with true by (symmetry; apply Nat.ltb_lt; lia).
  reflexivity.
Qed.

Lemma step_write (src_reg dst_reg : Z) :
  (pc s + 2 < length program)%nat -> b (pc s) = 80 ->
  decode_write (b (pc s)) (b (pc s + 1)%nat) (b (pc s + 2)%nat) = (src_reg, dst_reg) ->
  step program s =
  (addr <- get_reg dst_reg ;;
   if negb (in_ram addr) then raise MemoryFault else
   v <- get_reg src_reg ;;
   set_ram addr v ;;;
   set_pc (pc s + 3)) s.
Proof.
  intros Hlen Hop Hdec. unfold step, bind at 1, get_pc. cbv zeta.
  fold b. rewrite Hdec, Hop. cbn [Z.eqb Pos.eqb andb].
  replace (pc s + 2 <? length program)%nat with true by (symmetry; apply Nat.ltb_lt; lia).
  reflexivity.
Qed.

Lemma step_load (const r : Z) :
  (pc s + 4 < length program)%nat -> b (pc s) = 67 ->
  decode_load (b (pc s)) (b (pc s + 1)%nat) (b (pc s + 2)%nat) (b (pc s + 3)%nat)
              (b (pc s + 4)%nat) = (const, r) ->
  step program s = (set_reg r const ;;; set_pc (pc s + 5)) s.
Proof.
  intros Hlen Hop Hdec. unfold step, bind at 1, get_pc. cbv zeta.
  fold b. rewrite Hdec, Hop. cbn [Z.eqb Pos.eqb andb].
  replace (pc s + 4 <? length program)%nat with true by (symmetry; apply Nat.ltb_lt; lia).
  reflexivity.
Qed.

End Branches.

Lemma in_ram_true (a : Z) : 0 <= a < 1024 -> in_ram a = true.
Proof. intros H. unfold in_ram, RAM_SIZE. apply andb_true_iff; split; [apply Z.leb_le | apply Z.ltb_lt]; lia. Qed.

Lemma in_ram_false (a : Z) : a < 0 \/ 1024 <= a -> in_ram a = false.
Proof.
  intros H. unfold in_ram, RAM_SIZE. apply andb_false_iff.
  destruct H; [left; apply Z.leb_gt | right; apply Z.ltb_ge]; lia.
Qed.

(** X6: READ with 32 registers and 1024 cells: the address is [reg[src] +
    offset]; outside [0, 1024) it raises [MemoryFault] with nothing changed,
    otherwise it sets [reg[dst] := ram[addr]] and advances [pc] by 4. *)
Theorem read_semantics (program : list byte) (s : VM) (src_reg offset dst_reg : Z) :
  (pc s + 3 < length program)%nat -> at_ program (pc s) = 200 ->
  decode_read (at_ program (pc s)) (at_ program (pc s + 1)) (at_ program (pc s + 2))
              (at_ program (pc s + 3)) = (src_reg, offset, dst_reg) ->
  length (reg s) = 32%nat -> length (ram s) = 1024%nat ->
  let addr := nth (Z.to_nat src_reg) (reg s) 0 + offset in
  ((addr < 0 \/ 1024 <= addr) -> step program s = (inl MemoryFault, s)) /\
  (0 <= addr < 1024 ->
   step program s =
   (inr tt, {| ram := ram s;
               reg := set_nth (reg s) (Z.to_nat dst_reg) (nth (Z.to_nat addr) (ram s) 0);
               pc := pc s + 4 |})).
Proof.
  intros Hlen Hop Hdec Hreg Hram addr.
  pose proof (decode_read_range (at_ program (pc s)) (at_ program (pc s + 1))
                (at_ program (pc s + 2)) (at_ program (pc s + 3))
                (at_range _ _) (at_range _ _) (at_range _ _)) as Hr.
  rewrite Hdec in Hr. destruct Hr as [Hsrc [Hoff Hdst]].
  rewrite (step_read program s src_reg offset dst_reg Hlen Hop Hdec).
  unfold bind, get_reg. rewrite (py_get_nonneg (reg s) src_reg) by lia. fold addr.
  split; intros Ha.
  - rewrite in_ram_false by exact Ha. reflexivity.
  - rewrite in_ram_true by exact Ha. cbn [negb]. unfold get_ram, set_reg, set_pc.
    rewrite py_get_nonneg by lia. rewrite py_set_nonneg by lia. reflexivity.
Qed.

(** X7: WRITE with 32 registers and 1024 cells: the address is [reg[dst]];
    outside [0, 1024) it raises [MemoryFault] with nothing changed,
    otherwise it sets [ram[addr] := reg[src]] and advances [pc] by 3. *)
Theorem write_semantics (program : list byte) (s : VM) (src_reg dst_reg : Z) :
  (pc s + 2 < length program)%nat -> at_ program (pc s) = 80 ->
  decode_write (at_ program (pc s)) (at_ program (pc s + 1)) (at_ program (pc s + 2)) =
    (src_reg, dst_reg) ->
  length (reg s) = 32%nat -> length (ram s) = 1024%nat ->
  let addr := nth (Z.to_nat dst_reg) (reg s) 0 in
  ((addr < 0 \/ 1024 <= addr) -> step program s = (inl MemoryFault, s)) /\
  (0 <= addr < 1024 ->
   step program s =
   (inr tt, {| ram := set_nth (ram s) (Z.to_nat addr) (nth (Z.to_nat src_reg) (reg s) 0);
               reg := reg s; pc := pc s + 3 |})).
Proof.
  intros Hlen Hop Hdec Hreg Hram addr.
  pose proof (decode_write_range (at_ program (pc s)) (at_ program (pc s + 1))
                (at_ program (pc s + 2)) (at_range _ _) (at_range _ _)) as Hr.
  rewrite Hdec in Hr. destruct Hr as [Hsrc Hdst].
  rewrite (step_write program s src_reg dst_reg Hlen Hop Hdec).
  unfold bind, get_reg. rewrite (py_get_nonneg (reg s) dst_reg) by lia. fold addr.
  split; intros Ha.
  - rewrite in_ram_false by exact Ha. reflexivity.
  - rewrite in_ram_true by exact Ha. cbn [negb]. unfold set_ram, set_pc.
    rewrite (py_get_nonneg (reg s) src_reg) by lia. rewrite py_set_nonneg by lia. reflexivity.
Qed.

(** X8: LOAD with 32 registers: the decoded constant is in [0, 2^25) and the
    step sets [reg[r] := const] and advances [pc] by 5; it cannot fail. *)
Theorem load_semantics (program : list byte) (s : VM) (const r : Z) :
  (pc s + 4 < length program)%nat -> at_ program (pc s) = 67 ->
  decode_load (at_ program (pc s)) (at_ program (pc s + 1)) (at_ program (pc s + 2))
              (at_ program (pc s + 3)) (at_ program (pc s + 4)) = (const, r) ->
  length (reg s) = 32%nat ->
  0 <= const < 2 ^ 25 /\
  step program s =
  (inr tt, {| ram := ram s; reg := set_nth (reg s) (Z.to_nat r) const; pc := pc s + 5 |}).
Proof.
  intros Hlen Hop Hdec Hreg.
  pose proof (decode_load_range (at_ program (pc s)) (at_ program (pc s + 1))
                (at_ program (pc s + 2)) (at_ program (pc s + 3)) (at_ program (pc s + 4))
                (at_range _ _) (at_range _ _) (at_range _ _) (at_range _ _)) as Hr.
  rewrite Hdec in Hr. cbn [fst snd] in Hr. destruct Hr as [Hc Hrr].
  split; [exact Hc|].
  rewrite (step_load program s const r Hlen Hop Hdec).
  unfold bind, set_reg, set_pc. rewrite py_set_nonneg by lia. reflexivity.
Qed.

Lemma byte_val_inj (x y : byte) : byte_val x = byte_val y -> x = y.
Proof.
  unfold byte_val. intros H. apply N2Z.inj in H.
  apply (f_equal Byte.of_N) in H. rewrite !Byte.of_to_N in H. congruence.
Qed.

Lemma map_byte_val_inj (l1 l2 : list byte) : map byte_val l1 = map byte_val l2 -> l1 = l2.
Proof.
  revert l2; induction l1 as [|x l1 IH]; intros [|y l2] H; cbn in H; try discriminate; auto.
  inversion H. f_equal; auto. apply byte_val_inj; assumption.
Qed.

(** Clearing the low-order bits of a byte. *)
Lemma land_high_bits (a : Z) :
  0 <= a < 256 ->
  Z.land a 128 = a / 128 * 128 /\ Z.land a 192 = a / 64 * 64 /\ Z.land a 252 = a / 4 * 4.
Proof.
  intros Ha.
  assert (Hall : forallb (fun m => let a := Z.of_nat m in
                                   (Z.land a 128 =? a / 128 * 128) && (Z.land a 192 =? a / 64 * 64) &&
                                   (Z.land a 252 =? a / 4 * 4)) (seq 0 256) = true)
    by (vm_compute; reflexivity).
  rewrite forallb_forall in Hall. specialize (Hall (Z.to_nat a)).
  rewrite in_seq, Z2Nat.id in Hall by lia.
  specialize (Hall ltac:(lia)). cbv zeta in Hall.
  rewrite !andb_true_iff, !Z.eqb_eq in Hall. tauto.
Qed.

Lemma land_128 (a : Z) : 0 <= a < 256 -> Z.land a 128 = a / 128 * 128.
Proof. intros H. apply (land_high_bits a H). Qed.
Lemma land_192 (a : Z) : 0 <= a < 256 -> Z.land a 192 = a / 64 * 64.
Proof. intros H. apply (land_high_bits a H). Qed.
Lemma land_252 (a : Z) : 0 <= a < 256 -> Z.land a 252 = a / 4 * 4.
Proof. intros H. apply (land_high_bits a H). Qed.

Ltac high_bits := rewrite ?land_128, ?land_192, ?land_252 by lia.

Definition unused_mask (i : Instruction) : Z :=
  match i with
  | LoadInst _ _ => 63
  | ReadInst _ _ _ => 128
  | WriteInst _ _ => 192
  | AddInst _ _ _ => 252
  end.

Ltac reencode target :=
  let HL := fresh "HL" in
  match goal with |- exists bs', py_bytes ?l = _ /\ _ =>
    assert (HL : l = target)
  end;
  [repeat match goal with |- (_ :: _) = (_ :: _) => f_equal end;
        to_arith; high_bits; zlia|];
  rewrite HL;
  let bs' := fresh "bs'" in let Hb := fresh "Hb" in let Hm := fresh "Hm" in
  destruct (py_bytes_in_range target) as [bs' [Hb Hm]];
  [repeat (apply Forall_cons; [unfold byte_range; to_arith; high_bits; zlia|]); apply Forall_nil|];
  exists bs'; split; [exact Hb|]; rewrite Hm.

(** X9: re-encoding a decoded instruction gives back the same bytes, except
    that the bits of the last byte that no field uses are cleared. *)
Theorem encode_decode_bytes (bs : list byte) (i : Instruction) :
  decode_bytes bs = Some i ->
  exists bs', to_bytes i = Some bs' /\
    map byte_val bs' =
    removelast (map byte_val bs) ++ [Z.land (last (map byte_val bs) 0) (unused_mask i)].
Proof.
  intros H. unfold decode_bytes in H.
  destruct bs as [|x0 [|x1 [|x2 [|x3 [|x4 [|x5 bs]]]]]]; cbn [map] in *; try discriminate;
    pose proof (byte_val_range x0); pose proof (byte_val_range x1);
    try pose proof (byte_val_range x2); try pose proof (byte_val_range x3);
    try pose proof (byte_val_range x4);
    set (v0 := byte_val x0) in *; set (v1 := byte_val x1) in *;
    try set (v2 := byte_val x2) in *; try set (v3 := byte_val x3) in *;
    try set (v4 := byte_val x4) in *;
    cbn [removelast last app].
  - destruct (v0 =? WRITE_OP) eqn:E; [|discriminate]. apply Z.eqb_eq in E.
    destruct (decode_write v0 v1 v2) as [sr dr] eqn:D. inversion H; subst i; clear H.
    unfold decode_write in D; cbv zeta in D. apply pair_equal_spec in D. destruct D as [D1 D2].
    subst sr dr. cbn [to_bytes unused_mask]. unfold WriteInst_to_bytes, WRITE_OP in *; cbv zeta.
    change (Z.land 80 255) with 80. reencode [80; v1; Z.land v2 192]. rewrite E. reflexivity.
  - destruct (v0 =? READ_OP) eqn:E.
    + apply Z.eqb_eq in E.
      destruct (decode_read v0 v1 v2 v3) as [[sr of] dr] eqn:D. inversion H; subst i; clear H.
      unfold decode_read in D; cbv zeta in D. apply pair_equal_spec in D. destruct D as [D D3].
      apply pair_equal_spec in D. destruct D as [D1 D2].
      subst sr of dr. cbn [to_bytes unused_mask]. unfold ReadInst_to_bytes, READ_OP in *; cbv zeta.
      change (Z.land 200 255) with 200. reencode [200; v1; v2; Z.land v3 128]. rewrite E. reflexivity.
    + destruct (v0 =? ADD_OP) eqn:E'; [|discriminate]. apply Z.eqb_eq in E'.
      destruct (decode_add v0 v1 v2 v3) as [[sr ad] ar] eqn:D. inversion H; subst i; clear H.
      unfold decode_add in D; cbv zeta in D. apply pair_equal_spec in D. destruct D as [D D3].
      apply pair_equal_spec in D. destruct D as [D1 D2].
      subst sr ad ar. cbn [to_bytes unused_mask]. unfold AddInst_to_bytes, ADD_OP in *; cbv zeta.
      change (Z.land 178 255) with 178. reencode [178; v1; v2; Z.land v3 252]. rewrite E'. reflexivity.
  - destruct (v0 =? LOAD_OP) eqn:E; [|discriminate]. apply Z.eqb_eq in E.
    destruct (decode_load v0 v1 v2 v3 v4) as [c r] eqn:D. inversion H; subst i; clear H.
    unfold decode_load in D; cbv zeta in D. apply pair_equal_spec in D. destruct D as [D1 D2].
    subst c r. cbn [to_bytes unused_mask]. unfold LoadInst_to_bytes, LOAD_OP in *; cbv zeta.
    change (Z.land 67 255) with 67. reencode [67; v1; v2; v3; Z.land v4 63]. rewrite E. reflexivity.
Qed.

Section StripMore.

Definition nonspace (c : ascii) : Prop := is_space c = false.

Lemma lstrip_app_nsp (X Y : list ascii) (c : ascii) :
  is_space c = false -> lstrip (X ++ c :: Y) = lstrip X ++ c :: Y.
Proof.
  intros Hc. induction X as [|x X IH]; cbn.
  - rewrite Hc. reflexivity.
  - destruct (is_space x); [exact IH | reflexivity].
Qed.

Lemma lstrip_nil_spaces (X : list ascii) : lstrip X = [] -> spaces X.
Proof.
  induction X as [|x X IH]; cbn; intros H; [constructor|].
  destruct (is_space x) eqn:Hx; [|discriminate].
  constructor; [exact Hx | apply IH; exact H].
Qed.

Lemma spaces_lstrip_nil (X : list ascii) : spaces X -> lstrip X = [].
Proof. intros H. rewrite <- (app_nil_r X), lstrip_spaces by exact H. reflexivity. Qed.

Lemma spaces_rev (X : list ascii) : spaces X -> spaces (rev X).
Proof. apply Forall_rev. Qed.

Lemma rev_spaces (X : list ascii) : spaces (rev X) -> spaces X.
Proof. intros H. rewrite <- (rev_involutive X). apply Forall_rev. exact H. Qed.

Lemma lstrip_app_keep (X Y : list ascii) : lstrip X <> [] -> lstrip (X ++ Y) = lstrip X ++ Y.
Proof.
  induction X as [|x X IH]; cbn; intros H; [congruence|].
  destruct (is_space x); [apply IH; exact H | reflexivity].
Qed.

Lemma rstrip_spaces (P X : list ascii) : spaces X -> rstrip (P ++ X) = rstrip P.
Proof.
  intros H. unfold rstrip. rewrite rev_app_distr, lstrip_spaces by (apply spaces_rev; exact H).
  reflexivity.
Qed.

Lemma rstrip_app_keep (P X : list ascii) : lstrip X <> [] -> rstrip (P ++ X) = P ++ rstrip X.
Proof.
  intros H. unfold rstrip. rewrite rev_app_distr.
  rewrite lstrip_app_keep.
  - rewrite rev_app_distr, rev_involutive. reflexivity.
  - intros E. apply lstrip_nil_spaces, rev_spaces, spaces_lstrip_nil in E. contradiction.
Qed.

Lemma rstrip_cons_nsp (c : ascii) (X : list ascii) :
  is_space c = false -> rstrip (c :: X) = c :: rstrip X.
Proof.
  intros Hc. destruct (lstrip X) eqn:E.
  - apply lstrip_nil_spaces in E.
    change (c :: X) with ([c] ++ X). rewrite rstrip_spaces by exact E.
    rewrite <- (app_nil_l X), rstrip_spaces by exact E.
    unfold rstrip; cbn. rewrite Hc. reflexivity.
  - change (c :: X) with ([c] ++ X). rewrite rstrip_app_keep by congruence. reflexivity.
Qed.

Lemma rstrip_nsp_all (w : list ascii) : Forall nonspace w -> rstrip w = w.
Proof.
  induction 1 as [|x w Hx _ IH]; [reflexivity|].
  rewrite rstrip_cons_nsp by exact Hx. congruence.
Qed.

Lemma lstrip_head (X r : list ascii) (c : ascii) : lstrip X = c :: r -> is_space c = false.
Proof.
  induction X as [|x X IH]; cbn; [discriminate|].
  destruct (is_space x) eqn:Hx; [exact IH|]. intros E; inversion E; subst; exact Hx.
Qed.

Lemma lstrip_idem (X : list ascii) : lstrip (lstrip X) = lstrip X.
Proof.
  destruct (lstrip X) as [|c r] eqn:E; [reflexivity|].
  apply lstrip_keep. eapply lstrip_head; eauto.
Qed.

Lemma rstrip_idem (X : list ascii) : rstrip (rstrip X) = rstrip X.
Proof. unfold rstrip. rewrite rev_involutive, lstrip_idem. reflexivity. Qed.

Lemma lstrip_rstrip (X : list ascii) : lstrip (rstrip X) = rstrip (lstrip X).
Proof.
  destruct (lstrip_split X) as [pre [HX Hpre]].
  destruct (lstrip X) as [|c r] eqn:E.
  - rewrite HX, app_nil_r, <- (app_nil_l pre), rstrip_spaces by exact Hpre. reflexivity.
  - rewrite HX, rstrip_app_keep by (rewrite lstrip_keep by (eapply lstrip_head; eauto); congruence).
    rewrite lstrip_spaces by exact Hpre.
    pose proof (lstrip_head _ _ _ E) as Hc.
    rewrite rstrip_cons_nsp by exact Hc. apply lstrip_keep. exact Hc.
Qed.

Lemma in_lstrip (x : ascii) (X : list ascii) : In x (lstrip X) -> In x X.
Proof.
  destruct (lstrip_split X) as [pre [HX _]]. intros H. rewrite HX. apply in_or_app; right; exact H.
Qed.

Lemma in_rstrip (x : ascii) (X : list ascii) : In x (rstrip X) -> In x X.
Proof.
  unfold rstrip. intros H. apply in_rev in H. apply in_lstrip in H. apply in_rev. exact H.
Qed.

End StripMore.

Section Splits.

Lemma split_on_none (sep : ascii) (X : list ascii) : ~ In sep X -> split_on sep X = [X].
Proof.
  induction X as [|x X IH]; intros H; [reflexivity|]. cbn.
  destruct (Ascii.eqb x sep) eqn:E.
  - apply Ascii.eqb_eq in E. subst. exfalso. apply H. left. reflexivity.
  - rewrite IH by (intros Hin; apply H; right; exact Hin). reflexivity.
Qed.

Lemma split_on_first (sep : ascii) (X Y : list ascii) :
  ~ In sep X -> split_on sep (X ++ sep :: Y) = X :: split_on sep Y.
Proof.
  induction X as [|x X IH]; intros H; cbn.
  - rewrite Ascii.eqb_refl. reflexivity.
  - destruct (Ascii.eqb x sep) eqn:E.
    + apply Ascii.eqb_eq in E. subst. exfalso. apply H. left. reflexivity.
    + rewrite IH by (intros Hin; apply H; right; exact Hin). reflexivity.
Qed.

Lemma break_space_nsp (X : list ascii) : Forall nonspace X -> break_space X = (X, None).
Proof. induction 1 as [|x X Hx _ IH]; cbn; [reflexivity|]. rewrite Hx, IH. reflexivity. Qed.

Lemma break_space_first (X Y : list ascii) (sp : ascii) :
  Forall nonspace X -> is_space sp = true -> break_space (X ++ sp :: Y) = (X, Some (lstrip Y)).
Proof.
  intros HX Hsp. induction HX as [|x X Hx _ IH]; cbn; [rewrite Hsp; reflexivity|].
  rewrite Hx, IH. reflexivity.
Qed.

Lemma break_space_fst (X Y : list ascii) :
  Forall nonspace X -> fst (break_space (X ++ Y)) = X ++ fst (break_space Y).
Proof.
  induction 1 as [|x X Hx _ IH]; cbn; [reflexivity|]. rewrite Hx.
  destruct (break_space (X ++ Y)) as [w r]. cbn in *. congruence.
Qed.

Lemma first_space (A : list ascii) :
  Forall nonspace A \/
  exists w sp R, A = w ++ sp :: R /\ Forall nonspace w /\ is_space sp = true.
Proof.
  induction A as [|a A [IH | [w [sp [R [E [Hw Hsp]]]]]]]; [left; constructor| |].
  - destruct (is_space a) eqn:Ha.
    + right. exists [], a, A. split; [reflexivity | split; [constructor | exact Ha]].
    + left. constructor; assumption.
  - destruct (is_space a) eqn:Ha.
    + right. exists [], a, A. split; [reflexivity | split; [constructor | exact Ha]].
    + right. exists (a :: w), sp, R. subst A. split; [reflexivity | split; [constructor; assumption | exact Hsp]].
Qed.

End Splits.

Definition dispatch (mnemo args_str : list ascii) : asm_error + option Instruction :=
      let args := match args_str with [] => [] | _ => map py_strip (split_on "," args_str) end in
      let arg i := nth i args [] in
      if is_word mnemo "LOAD" then
        if negb (length args =? 2)%nat then inl ValueError else
        match py_int_l (arg 0%nat), parse_register_l (arg 1%nat) with
        | inr const, inr reg => inr (Some (LoadInst const reg))
        | _, _ => inl ValueError
        end
      else if is_word mnemo "READ" then
        if negb (length args =? 3)%nat then inl ValueError else
        match parse_register_l (arg 0%nat), py_int_l (arg 1%nat), parse_register_l (arg 2%nat) with
        | inr rsrc, inr offset, inr rdst => inr (Some (ReadInst rsrc offset rdst))
        | _, _, _ => inl ValueError
        end
      else if is_word mnemo "WRITE" then
        if negb (length args =? 2)%nat then inl ValueError else
        match parse_register_l (arg 0%nat), parse_register_l (arg 1%nat) with
        | inr rsrc, inr rdst => inr (Some (WriteInst rsrc rdst))
        | _, _ => inl ValueError
        end
      else if is_word mnemo "ADD" then
        if negb (length args =? 3)%nat then inl ValueError else
        match parse_register_l (arg 0%nat), py_int_l (arg 1%nat), parse_register_l (arg 2%nat) with
        | inr rsrc, inr addr, inr raddr => inr (Some (AddInst rsrc addr raddr))
        | _, _, _ => inl ValueError
        end
      else inl ValueError.

Definition line_fields (l : list ascii) : list ascii * list ascii :=
  let parts := re_split_ws1 l in
  let args_str := if (1 <? length parts)%nat then nth 1 parts [] else [] in
  (map upper_char (nth 0 parts []), py_strip (nth 0 (split_on ";" args_str) [])).

Lemma parse_line_fields (line : string) (c : ascii) (r : list ascii) :
  py_strip (lstr line) = c :: r -> Ascii.eqb c ";" = false ->
  parse_line line = dispatch (fst (line_fields (c :: r))) (snd (line_fields (c :: r))).
Proof. intros H Hc. unfold parse_line. rewrite H, Hc. reflexivity. Qed.

Lemma dispatch_no_args (m : list ascii) : dispatch m [] = inl ValueError.
Proof.
  unfold dispatch. cbn.
  destruct (is_word m "LOAD"), (is_word m "READ"), (is_word m "WRITE"), (is_word m "ADD"); reflexivity.
Qed.

Lemma is_word_semicolon (m : list ascii) (s : string) :
  In ";"%char m -> ~ In ";"%char (lstr s) -> is_word m s = false.
Proof.
  intros Hm Hs. unfold is_word. destruct (list_eq_dec ascii_dec m (lstr s)); [|reflexivity].
  subst. contradiction.
Qed.

Lemma dispatch_semicolon (m a : list ascii) : In ";"%char m -> dispatch m a = inl ValueError.
Proof.
  intros Hm. unfold dispatch.
  rewrite !is_word_semicolon by (exact Hm || (cbn; intuition discriminate)). reflexivity.
Qed.

Lemma lstr_app (a b : string) : lstr (a ++ b) = lstr a ++ lstr b.
Proof. induction a as [|c a IH]; cbn; [reflexivity|]. unfold lstr in IH. rewrite IH. reflexivity. Qed.

Lemma nth0_re_split (l : list ascii) : nth 0 (re_split_ws1 l) [] = fst (break_space l).
Proof. unfold re_split_ws1. destruct (break_space l) as [w [r|]]; reflexivity. Qed.

Lemma semicolon_nonspace : is_space ";" = false.
Proof. reflexivity. Qed.

(** Appending [;] and any text to a line that has no [;] yet does not
    change what the model [parse_line] returns; the model has a single
    [ValueError], so on failing lines this says nothing about the message. *)
Lemma parse_line_comment_eq (line comment : string) :
  ~ In ";"%char (lstr line) -> parse_line (line ++ ";" ++ comment) = parse_line line.
Proof.
  intros Hno.
  assert (Hstrip : py_strip (lstr (line ++ ";" ++ comment)) =
                   lstrip (lstr line) ++ ";"%char :: rstrip (lstr comment)).
  { rewrite !lstr_app. cbn [lstr list_ascii_of_string app]. unfold py_strip.
    rewrite lstrip_app_nsp by reflexivity.
    rewrite rstrip_app_keep by (cbn; discriminate).
    rewrite rstrip_cons_nsp by reflexivity. reflexivity. }
  set (C' := rstrip (lstr comment)) in *.
  destruct (lstrip (lstr line)) as [|c A'] eqn:HA.
  - unfold parse_line at 1. rewrite Hstrip. cbn [app]. rewrite Ascii.eqb_refl.
    unfold parse_line. unfold py_strip. rewrite HA. reflexivity.
  - assert (Hc : is_space c = false) by (eapply lstrip_head; eauto).
    assert (HinA : forall x, In x (c :: A') -> In x (lstr line))
      by (intros x Hx; apply in_lstrip; rewrite HA; exact Hx).
    assert (Hcs : Ascii.eqb c ";" = false).
    { apply Ascii.eqb_neq. intros E; subst c. apply Hno, HinA. left; reflexivity. }
    assert (HnoA : ~ In ";"%char A') by (intros H; apply Hno, HinA; right; exact H).
    rewrite (parse_line_fields _ c (A' ++ ";"%char :: C')) by first [rewrite Hstrip; rewrite ?HA; reflexivity | exact Hcs].
    rewrite (parse_line_fields line c (rstrip A'))
      by first [unfold py_strip; rewrite HA; apply rstrip_cons_nsp; exact Hc | exact Hcs].
    destruct (first_space A') as [Hall | [w [sp [R [EA [Hw Hsp]]]]]].
    + (* the mnemonic runs into the comment *)
      rewrite rstrip_nsp_all by exact Hall.
      assert (Hright : snd (line_fields (c :: A')) = []).
      { unfold line_fields, re_split_ws1.
        rewrite break_space_nsp by (constructor; assumption). reflexivity. }
      rewrite Hright, dispatch_no_args. apply dispatch_semicolon.
      unfold line_fields. cbn [fst]. rewrite nth0_re_split.
      replace (c :: A' ++ ";"%char :: C') with ((c :: A' ++ [";"%char]) ++ C')
        by (cbn; rewrite <- app_assoc; reflexivity).
      rewrite break_space_fst.
      * apply in_map_iff. exists ";"%char. split; [reflexivity|].
        apply in_or_app. left. right. apply in_or_app. right. left. reflexivity.
      * constructor; [exact Hc|]. apply Forall_app. split; [exact Hall|].
        constructor; [reflexivity | constructor].
    + subst A'.
      assert (HnoR : ~ In ";"%char R) by (intros H; apply HnoA, in_or_app; right; right; exact H).
      assert (Hw' : Forall nonspace (c :: w)) by (constructor; assumption).
      assert (Hleft : line_fields (c :: (w ++ sp :: R) ++ ";"%char :: C') =
                      (map upper_char (c :: w), py_strip (lstrip R))).
      { unfold line_fields, re_split_ws1.
        replace (c :: (w ++ sp :: R) ++ ";"%char :: C') with ((c :: w) ++ sp :: (R ++ ";"%char :: C'))
          by (cbn; rewrite <- app_assoc; reflexivity).
        rewrite break_space_first by assumption.
        rewrite lstrip_app_nsp by reflexivity. cbn [length Nat.ltb Nat.leb nth].
        rewrite split_on_first by (intros H; apply HnoR, in_lstrip; exact H). reflexivity. }
      rewrite Hleft.
      destruct (lstrip R) as [|r0 R'] eqn:HR.
      * apply lstrip_nil_spaces in HR.
        rewrite rstrip_spaces by (constructor; assumption).
        rewrite rstrip_nsp_all by exact Hw.
        unfold line_fields, re_split_ws1.
        rewrite break_space_nsp by exact Hw'. reflexivity.
      * assert (HRne : lstrip R <> []) by congruence.
        rewrite rstrip_app_keep by (cbn; rewrite Hsp; exact HRne).
        change (sp :: R) with ([sp] ++ R). rewrite rstrip_app_keep by exact HRne. cbn [app].
        unfold line_fields, re_split_ws1.
        replace (c :: w ++ sp :: rstrip R) with ((c :: w) ++ sp :: rstrip R) by reflexivity.
        rewrite break_space_first by assumption. cbn [length Nat.ltb Nat.leb nth fst snd].
        rewrite split_on_none by (intros H; apply HnoR, in_rstrip, in_lstrip; exact H).
        cbn [nth]. f_equal. rewrite <- HR.
        unfold py_strip. rewrite !lstrip_idem, lstrip_rstrip, rstrip_idem. reflexivity.
Qed.

(** X10: a trailing comment never changes a successful result: for a line
    with no [;], [parse_line (line ++ ";" ++ comment)] returns an
    instruction (or [None]) exactly when [parse_line line] returns that
    same instruction (or [None]); so a comment can neither make a failing
    line succeed nor make a succeeding line fail. Only the message of the
    ValueError raised may differ ([LOAD] fails on the operand count,
    [LOAD;c] on the mnemonic), which this model does not distinguish. *)
Theorem parse_line_comment (line comment : string) :
  ~ In ";"%char (lstr line) ->
  forall o, parse_line (line ++ ";" ++ comment) = inr o <-> parse_line line = inr o.
Proof. intros H o. rewrite (parse_line_comment_eq line comment H). reflexivity. Qed.

Definition reg_ok (r : Z) : Prop := 0 <= r <= 31.

Definition instr_regs_ok (i : Instruction) : Prop :=
  match i with
  | LoadInst _ r => reg_ok r
  | ReadInst s _ d => reg_ok s /\ reg_ok d
  | WriteInst s d => reg_ok s /\ reg_ok d
  | AddInst s _ r => reg_ok s /\ reg_ok r
  end.

Lemma parse_register_l_range (l : list ascii) (n : Z) :
  parse_register_l l = inr n -> reg_ok n.
Proof.
  unfold parse_register_l, parse_register, reg_ok. intros H.
  split_matches H; try discriminate. inversion H; subst. bool_facts. lia.
Qed.

Lemma dispatch_result (m a : list ascii) (r : asm_error + option Instruction) :
  dispatch m a = r -> r = inl ValueError \/ exists i, r = inr (Some i) /\ instr_regs_ok i.
Proof.
  intros H. unfold dispatch in H. cbv zeta in H. split_matches H; subst r; auto.
  all: right; eexists; split; [reflexivity|]; cbn [instr_regs_ok].
  all: repeat match goal with E : parse_register_l _ = inr _ |- _ =>
                apply parse_register_l_range in E end; tauto.
Qed.

(** X11: [parse_line] returns [None] exactly on a line that is blank or
    whose first non-blank character is [;]. *)
Theorem parse_line_skip (line : string) :
  parse_line line = inr None <->
  py_strip (lstr line) = [] \/ exists r, py_strip (lstr line) = ";"%char :: r.
Proof.
  split.
  - destruct (py_strip (lstr line)) as [|c r] eqn:E; [auto|].
    destruct (Ascii.eqb c ";") eqn:Hc.
    + apply Ascii.eqb_eq in Hc. subst. eauto.
    + rewrite (parse_line_fields line c r E Hc). intros H.
      destruct (dispatch_result _ _ _ H) as [H1 | [i [H1 _]]]; discriminate.
  - unfold parse_line. intros [E | [r E]]; rewrite E; [reflexivity|].
    rewrite Ascii.eqb_refl. reflexivity.
Qed.

(** X12: every instruction [parse_line] returns names registers in [0, 31]. *)
Theorem parse_line_registers (line : string) (i : Instruction) :
  parse_line line = inr (Some i) -> instr_regs_ok i.
Proof.
  intros H. destruct (py_strip (lstr line)) as [|c r] eqn:E.
  - unfold parse_line in H. rewrite E in H. discriminate.
  - destruct (Ascii.eqb c ";") eqn:Hc.
    + unfold parse_line in H. rewrite E, Hc in H. discriminate.
    + rewrite (parse_line_fields line c r E Hc) in H.
      destruct (dispatch_result _ _ _ H) as [H1 | [i' [H1 Hok]]]; [discriminate|].
      inversion H1; subst. exact Hok.
Qed.

Lemma to_bytes_some (i : Instruction) : exists bs, to_bytes i = Some bs.
Proof.
  destruct i as [c r|s o d|s d|s a r]; cbn [to_bytes].
  - destruct (load_codec c r) as [bs [H _]]; eauto.
  - destruct (read_codec s o d) as [bs [H _]]; eauto.
  - destruct (write_codec s d) as [bs [H _]]; eauto.
  - destruct (add_codec s a r) as [bs [H _]]; eauto.
Qed.

Lemma join_bytes_app (l1 l2 : list Instruction) :
  join_bytes (l1 ++ l2) =
  match join_bytes l1, join_bytes l2 with Some a, Some b => Some (a ++ b) | _, _ => None end.
Proof.
  induction l1 as [|i l1 IH]; cbn [app join_bytes].
  - destruct (join_bytes l2); reflexivity.
  - rewrite IH. destruct (to_bytes i), (join_bytes l1), (join_bytes l2); try reflexivity.
    rewrite app_assoc. reflexivity.
Qed.

Lemma join_bytes_some (l : list Instruction) : exists bs, join_bytes l = Some bs.
Proof.
  induction l as [|i l [bs IH]]; cbn [join_bytes]; [eauto|].
  destruct (to_bytes_some i) as [b Hb]. rewrite Hb, IH. eauto.
Qed.

Lemma parse_lines_app (l1 l2 : list string) :
  parse_lines (l1 ++ l2) =
  match parse_lines l1, parse_lines l2 with Some a, Some b => Some (a ++ b) | _, _ => None end.
Proof.
  induction l1 as [|line l1 IH]; cbn [app parse_lines].
  - destruct (parse_lines l2); reflexivity.
  - destruct (parse_line line) as [e|[i|]]; [reflexivity| |exact IH].
    rewrite IH. destruct (parse_lines l1), (parse_lines l2); reflexivity.
Qed.

(** X13: assembling two sources one after the other gives the concatenation
    of their binaries, and fails as soon as one of them fails. *)
Theorem assemble_app (l1 l2 : list string) :
  assemble (l1 ++ l2) =
  match assemble l1, assemble l2 with Some a, Some b => Some (a ++ b) | _, _ => None end.
Proof.
  unfold assemble. rewrite parse_lines_app.
  destruct (parse_lines l1) as [a|], (parse_lines l2) as [b|]; try reflexivity.
  - apply join_bytes_app.
  - destruct (join_bytes a); reflexivity.
Qed.

(** X14: assembly fails exactly when some line raises in [parse_line]:
    encoding a parsed program never fails. *)
Theorem assemble_fails (lines : list string) :
  assemble lines = None <-> exists line, In line lines /\ exists e, parse_line line = inl e.
Proof.
  unfold assemble. induction lines as [|line rest IH]; cbn [parse_lines].
  - split; [discriminate | intros [l [[] _]]].
  - destruct (parse_line line) as [e|[i|]] eqn:E.
    + split; [intros _; exists line; split; [left; reflexivity | eauto] | reflexivity].
    + destruct (parse_lines rest) as [is|] eqn:R; cbn [option_map].
      * destruct (join_bytes_some (i :: is)) as [bs Hbs]. rewrite Hbs. split; [discriminate|].
        intros [l [[<- | Hin] [e He]]]; [congruence|].
        destruct (join_bytes_some is) as [bs' Hbs'].
        assert (Hn : join_bytes is = None) by (apply IH; eauto). congruence.
      * split; [intros _|reflexivity].
        destruct (proj1 IH eq_refl) as [l [Hin He]]. exists l. split; [right; exact Hin | exact He].
    + rewrite IH. split.
      * intros [l [Hin He]]. exists l. split; [right; exact Hin | exact He].
      * intros [l [[<- | Hin] [e He]]]; [congruence|]. exists l. split; [exact Hin | eauto].
Qed.

(** The loop of [asm.main]: lines numbered from [i]; [inl n] is the
    [sys.exit(1)] on the error in line [n], [inr] the list of
    instructions appended to. *)
Fixpoint main_loop (i : nat) (instructions : list Instruction) (lines : list string)
  : nat + list Instruction :=
  match lines with
  | [] => inr instructions
  | line :: rest =>
      match parse_line line with
      | inl _ => inl i
      | inr None => main_loop (S i) instructions rest
      | inr (Some instr) => main_loop (S i) (instructions ++ [instr]) rest
      end
  end.

Lemma main_loop_ok (i : nat) (acc : list Instruction) (lines : list string) :
  (forall is, main_loop i acc lines = inr is <->
              exists is', parse_lines lines = Some is' /\ is = acc ++ is').
Proof.
  revert i acc. induction lines as [|line rest IH]; intros i acc is; cbn [main_loop parse_lines].
  - split; [intros H; inversion H; exists []; rewrite app_nil_r; auto|].
    intros [is' [H1 H2]]. inversion H1; subst. rewrite app_nil_r. reflexivity.
  - destruct (parse_line line) as [e|[instr|]].
    + split; [discriminate | intros [is' [H _]]; discriminate].
    + rewrite IH. destruct (parse_lines rest) as [r|]; cbn [option_map]; split.
      * intros [is' [H1 H2]]. inversion H1; subst. exists (instr :: is'). rewrite <- app_assoc. auto.
      * intros [is' [H1 H2]]. inversion H1; subst. exists r. rewrite <- app_assoc. auto.
      * intros [is' [H1 _]]; discriminate.
      * intros [is' [H1 _]]; discriminate.
    + apply IH.
Qed.

Lemma main_loop_err (i : nat) (acc : list Instruction) (lines : list string) (n : nat) :
  main_loop i acc lines = inl n <->
  (i <= n < i + length lines)%nat /\
  (exists e, parse_line (nth (n - i) lines EmptyString) = inl e) /\
  (forall j, (j < n - i)%nat -> exists o, parse_line (nth j lines EmptyString) = inr o).
Proof.
  revert i acc. induction lines as [|line rest IH]; intros i acc; cbn [main_loop length].
  - split; [discriminate | lia].
  - destruct (parse_line line) as [e|o] eqn:E.
    + split.
      * intros H. inversion H; subst. rewrite Nat.sub_diag. cbn [nth].
        split; [lia|]. split; [eauto | intros j Hj; lia].
      * intros [Hn [_ Hbefore]]. f_equal.
        destruct (Nat.eq_dec n i) as [|Hne]; [congruence|].
        destruct (Hbefore 0%nat) as [o Ho]; [lia|]. cbn [nth] in Ho. congruence.
    + assert (IH' : main_loop (S i) (match o with Some instr => acc ++ [instr] | None => acc end) rest
                      = inl n <-> _) by apply IH.
      replace (match o with Some instr => main_loop (S i) (acc ++ [instr]) rest
                           | None => main_loop (S i) acc rest end)
        with (main_loop (S i) (match o with Some instr => acc ++ [instr] | None => acc end) rest)
        by (destruct o; reflexivity).
      rewrite IH'. split.
      * intros [Hn [[e He] Hb]].
        replace (n - i)%nat with (S (n - S i)) by lia. cbn [nth].
        split; [lia|]. split; [eauto|].
        intros [|j] Hj; cbn [nth]; [eauto|]. apply Hb. lia.
      * intros [Hn [[e He] Hb]].
        destruct (Nat.eq_dec n i) as [->|Hne].
        { rewrite Nat.sub_diag in He. cbn [nth] in He. congruence. }
        replace (n - i)%nat with (S (n - S i)) in He, Hb by lia. cbn [nth] in He.
        split; [lia|]. split; [eauto|].
        intros j Hj. apply (Hb (S j)). lia.
Qed.

(** X15: the loop of [asm.main] exits at line [n] (numbered from 1) exactly
    when line [n] raises in [parse_line] and all lines before it parse;
    otherwise it collects the instructions of [parse_lines]. *)
Theorem main_loop_spec (lines : list string) :
  (forall n, main_loop 1 [] lines = inl n <->
     (1 <= n <= length lines)%nat /\
     (exists e, parse_line (nth (n - 1) lines EmptyString) = inl e) /\
     (forall j, (j < n - 1)%nat -> exists o, parse_line (nth j lines EmptyString) = inr o)) /\
  (forall is, main_loop 1 [] lines = inr is <-> parse_lines lines = Some is).
Proof.
  split.
  - intros n. rewrite main_loop_err. split; intros [H1 H2]; (split; [lia | exact H2]).
  - intros is. rewrite main_loop_ok. split.
    + intros [is' [H1 H2]]. cbn in H2. congruence.
    + intros H. exists is. auto.
Qed.

Ltac len_branch_gen p1 p2 t m H Hne :=
  let L := fresh "L" in
  destruct (Nat.ltb_spec (pc t + m)%nat (length p1)) as [L|L];
  [ rewrite (proj2 (Nat.ltb_lt (pc t + m)%nat (length p1 + length p2)) ltac:(lia));
    cbn [andb] in *; rewrite ?at_app_l by lia; rewrite <- H; reflexivity
  | cbn [Z.eqb Pos.eqb andb] in H;
    unfold raise in H; injection H; intros; subst; congruence ].

Lemma step_prefix_gen (p1 p2 : list byte) (t t' : VM) (r : exn + unit) :
  step p1 t = (r, t') -> r <> inl IllegalInstruction -> step (p1 ++ p2) t = (r, t').
Proof.
  intros H Hne. unfold step, bind at 1, get_pc in H. unfold step, bind at 1, get_pc. cbv zeta in *.
  destruct (Nat.ltb_spec (pc t) (length p1)) as [Hp|Hp].
  2: { rewrite (at_out p1 (pc t) Hp) in H. cbn [Z.eqb Pos.eqb andb] in H.
       unfold raise in H; injection H; intros; subst; congruence. }
  rewrite (at_app_l p1 p2 (pc t) Hp).
  rewrite length_app.
  op_case (at_ p1 (pc t)) 67; [len_branch_gen p1 p2 t 4%nat H Hne |].
  op_case (at_ p1 (pc t)) 200; [len_branch_gen p1 p2 t 3%nat H Hne |].
  op_case (at_ p1 (pc t)) 80; [len_branch_gen p1 p2 t 2%nat H Hne |].
  op_case (at_ p1 (pc t)) 178; [len_branch_gen p1 p2 t 3%nat H Hne |].
  unfold raise in H; injection H; intros; subst; congruence.
Qed.

Lemma loop_prefix_err (p1 p2 : list byte) (f g n : nat) (s s1 : VM) (e : exn) :
  loop f p1 n s = (inl e, s1) -> e <> IllegalInstruction -> (f <= g)%nat ->
  loop g (p1 ++ p2) n s = (inl e, s1).
Proof.
  revert g n s; induction f as [|f IH]; intros g n s H He Hg.
  - rewrite loop_unfold in H. destruct (pc s <? length p1)%nat; discriminate.
  - rewrite loop_unfold in H. destruct (Nat.ltb_spec (pc s) (length p1)) as [Hp|Hp]; [|discriminate].
    destruct g as [|g]; [lia|].
    rewrite (loop_unfold (p1 ++ p2) (S g)), length_app.
    replace (pc s <? length p1 + length p2)%nat with true by (symmetry; apply Nat.ltb_lt; lia).
    destruct (step p1 s) as [[e'|[]] t] eqn:Hs.
    + inversion H; subst. rewrite (step_prefix_gen p1 p2 s s1 (inl e) Hs) by congruence.
      reflexivity.
    + rewrite (step_prefix_gen p1 p2 s t (inr tt) Hs) by discriminate.
      apply IH; auto. lia.
Qed.

(** The number of bytes of the format an opcode selects (0: none). *)
Definition fmt_len (op : Z) : nat :=
  if op =? 67 then 5 else if op =? 200 then 4 else if op =? 80 then 3
  else if op =? 178 then 4 else 0.

Lemma step_ok_len (p : list byte) (t t' : VM) :
  step p t = (inr tt, t') -> pc t' = (pc t + fmt_len (at_ p (pc t)))%nat.
Proof.
  intros H. unfold_vm. cbv zeta in H. unfold fmt_len.
  split_matches H; try congruence; inversion H; subst; clear H; cbn [pc];
    bool_facts; match goal with E : at_ _ _ = _ |- _ => rewrite E end; reflexivity.
Qed.

Lemma step_not_illegal (p : list byte) (t : VM) :
  (0 < fmt_len (at_ p (pc t)))%nat -> (pc t + fmt_len (at_ p (pc t)) <= length p)%nat ->
  fst (step p t) <> inl IllegalInstruction.
Proof.
  intros H1 H2. unfold_vm. cbv zeta. unfold fmt_len in *.
  destruct (Z.eqb_spec (at_ p (pc t)) 67) as [E|E]; cbn [andb].
  { replace (pc t + 4 <? length p)%nat with true by (symmetry; apply Nat.ltb_lt; lia).
    destruct (decode_load _ _ _ _ _); destruct (py_set _ _ _); cbn; discriminate. }
  destruct (Z.eqb_spec (at_ p (pc t)) 200) as [E2|E2]; cbn [andb].
  { replace (pc t + 3 <? length p)%nat with true by (symmetry; apply Nat.ltb_lt; lia).
    destruct (decode_read _ _ _ _) as [[? ?] ?]; destruct (py_get _ _); cbn; [|discriminate].
    destruct (negb _); cbn; [discriminate|].
    destruct (py_get _ _); cbn; [|discriminate]. destruct (py_set _ _ _); cbn; discriminate. }
  destruct (Z.eqb_spec (at_ p (pc t)) 80) as [E3|E3]; cbn [andb].
  { replace (pc t + 2 <? length p)%nat with true by (symmetry; apply Nat.ltb_lt; lia).
    destruct (decode_write _ _ _) as [? ?]; destruct (py_get _ _); cbn; [|discriminate].
    destruct (negb _); cbn; [discriminate|].
    destruct (py_get _ _); cbn; [|discriminate]. destruct (py_set _ _ _); cbn; discriminate. }
  destruct (Z.eqb_spec (at_ p (pc t)) 178) as [E4|E4]; cbn [andb].
  { replace (pc t + 3 <? length p)%nat with true by (symmetry; apply Nat.ltb_lt; lia).
    destruct (decode_add _ _ _ _) as [[? ?] ?]; destruct (py_get _ _); cbn; [|discriminate].
    destruct (py_get _ _); cbn; [|discriminate].
    destruct (py_get _ _); cbn; [|discriminate].
    destruct (negb _); cbn; [discriminate|]. destruct (py_set _ _ _); cbn; discriminate. }
  lia.
Qed.

Lemma py_bytes_map (l : list Z) (bs : list byte) : py_bytes l = Some bs -> map byte_val bs = l.
Proof.
  revert bs; induction l as [|x l IH]; intros bs H; cbn in H.
  - inversion H; reflexivity.
  - destruct ((0 <=? x) && (x <? 256))%bool eqn:R; [|discriminate].
    destruct (Byte.of_N (Z.to_N x)) as [b|] eqn:Hb; [|discriminate].
    destruct (py_bytes l) as [bs'|]; [|discriminate].
    inversion H; subst. cbn [map]. rewrite (IH bs' eq_refl). f_equal.
    unfold byte_val. apply Byte.to_of_N in Hb. rewrite Hb. bool_facts. apply Z2N.id. lia.
Qed.

Lemma at_map (p : list byte) (i : nat) : at_ p i = nth i (map byte_val p) 0.
Proof.
  unfold at_. destruct (Nat.lt_ge_cases i (length p)).
  - rewrite (nth_indep (map byte_val p) 0 (byte_val Byte.x00)) by (rewrite length_map; lia).
    rewrite map_nth. reflexivity.
  - rewrite !nth_overflow by (rewrite ?length_map; lia). reflexivity.
Qed.

Lemma bytes_fmt (i : Instruction) (b : list byte) :
  to_bytes i = Some b -> length b = fmt_len (at_ b 0) /\ (0 < length b)%nat.
Proof.
  intros H. rewrite at_map. rewrite <- (length_map byte_val b).
  destruct i; cbn [to_bytes] in H;
    unfold LoadInst_to_bytes, ReadInst_to_bytes, WriteInst_to_bytes, AddInst_to_bytes in H;
    cbv zeta in H; apply py_bytes_map in H; rewrite H; (split; [reflexivity | cbn [length]; lia]).
Qed.

Lemma exec_one (i : Instruction) (b : list byte) (s : VM) :
  to_bytes i = Some b ->
  (exists s1, execute b s = (inr (Some 1%nat), s1)) \/
  (exists e s1, execute b s = (inl e, s1) /\ e <> IllegalInstruction).
Proof.
  intros H. destruct (bytes_fmt i b H) as [Hlen Hpos].
  rewrite execute_unfold. set (s0 := {| ram := ram s; reg := reg s; pc := 0 |}).
  destruct (length b) as [|f] eqn:L; [lia|]. rewrite <- L.
  rewrite loop_unfold. change (pc s0) with 0%nat.
  replace (0 <? length b)%nat with true by (symmetry; apply Nat.ltb_lt; lia).
  rewrite L.
  destruct (step b s0) as [[e|[]] s1] eqn:Hs.
  - right. exists e, s1. split; [reflexivity|].
    pose proof (step_not_illegal b s0) as Hn. change (pc s0) with 0%nat in Hn.
    rewrite Hs in Hn. cbn [fst] in Hn. intros ->. apply Hn; [lia | lia | reflexivity].
  - left. exists s1. apply step_ok_len in Hs. change (pc s0) with 0%nat in Hs.
    rewrite loop_unfold. replace (pc s1 <? length b)%nat with false
      by (symmetry; apply Nat.ltb_ge; lia).
    reflexivity.
Qed.

(** X16: a program made of encoded instructions never raises
    [IllegalInstruction]; it raises [MemoryFault] or [IndexError], or ends
    normally after exactly one step per instruction. *)
Theorem assembled_runs (instrs : list Instruction) (bs : list byte) (s : VM) :
  join_bytes instrs = Some bs ->
  (exists s', execute bs s = (inr (Some (length instrs)), s')) \/
  fst (execute bs s) = inl MemoryFault \/ fst (execute bs s) = inl IndexError.
Proof.
  revert bs s. induction instrs as [|i rest IH]; intros bs s H; cbn [join_bytes] in H.
  - inversion H; subst. left. eexists. reflexivity.
  - destruct (to_bytes i) as [b|] eqn:Hb; [|discriminate].
    destruct (join_bytes rest) as [bs'|] eqn:Hr; [|discriminate].
    inversion H; subst bs; clear H.
    destruct (exec_one i b s Hb) as [[s1 Hs1] | [e [s1 [Hs1 He]]]].
    + rewrite (execute_seq b bs' s s1 1 Hs1).
      destruct (IH bs' s1 eq_refl) as [[s' E] | [E | E]].
      * left. rewrite E. eexists. reflexivity.
      * right; left. destruct (execute bs' s1) as [r t]. cbn in E |- *. subst. reflexivity.
      * right; right. destruct (execute bs' s1) as [r t]. cbn in E |- *. subst. reflexivity.
    + right. rewrite execute_unfold in Hs1 |- *.
      rewrite (loop_prefix_err b bs' _ _ _ _ _ _ Hs1 He) by (rewrite length_app; lia).
      cbn [fst]. destruct e; [congruence | auto | auto].
Qed.

Definition instr_format (i : Instruction) : nat * Z :=
  match i with
  | LoadInst _ _ => (5%nat, LOAD_OP)
  | ReadInst _ _ _ => (4%nat, READ_OP)
  | WriteInst _ _ => (3%nat, WRITE_OP)
  | AddInst _ _ _ => (4%nat, ADD_OP)
  end.

(** X17: [to_bytes] never raises, whatever the field values (negative or too
    wide): LOAD gives 5 bytes, READ 4, WRITE 3, ADD 4, the first one being
    the opcode. *)
Theorem to_bytes_total (i : Instruction) :
  exists b, to_bytes i = Some b /\ (length b, at_ b 0) = instr_format i.
Proof.
  destruct (to_bytes_some i) as [b Hb]. exists b. split; [exact Hb|].
  rewrite at_map, <- (length_map byte_val b).
  destruct i; cbn [to_bytes] in Hb;
    unfold LoadInst_to_bytes, ReadInst_to_bytes, WriteInst_to_bytes, AddInst_to_bytes in Hb;
    cbv zeta in Hb; apply py_bytes_map in Hb; rewrite Hb; reflexivity.
Qed.

(* ------------------------------------------------------------------ *)
(** ** Instances of the properties above *)

Lemma step_writes_one_witness :
  let p := [Byte.x43; Byte.x0a; Byte.x00; Byte.x00; Byte.x02] in
  let s := {| ram := [0]; reg := [0; 0]; pc := 0 |} in
  let s' := {| ram := [0]; reg := [0; 10]; pc := 5 |} in
  ((at_ p (pc s) = 67 \/ at_ p (pc s) = 200) /\ ram s' = ram s /\
   exists k v, (k < length (reg s))%nat /\ reg s' = set_nth (reg s) k v) \/
  ((at_ p (pc s) = 80 \/ at_ p (pc s) = 178) /\ reg s' = reg s /\
   exists k v, (k < length (ram s))%nat /\ ram s' = set_nth (ram s) k v).
Proof.
  intros p s s'. apply step_writes_one. reflexivity.
Defined.

Lemma execute_nonneg_witness :
  all_nonneg (snd (execute [Byte.x43; Byte.x0a; Byte.x00; Byte.x00; Byte.x02]
                           {| ram := [0; 4]; reg := [1; 0]; pc := 0 |})).
Proof.
  apply execute_nonneg. unfold all_nonneg; cbn [reg ram].
  split; repeat (apply Forall_cons; [lia|]); apply Forall_nil.
Defined.

Lemma execute_sizes_witness :
  length (reg (snd (execute [Byte.x50; Byte.x08; Byte.x80] VM_init))) = 32%nat /\
  length (ram (snd (execute [Byte.x50; Byte.x08; Byte.x80] VM_init))) = 1024%nat.
Proof.
  apply execute_sizes; reflexivity.
Defined.

Lemma execute_normal_end_witness :
  pc (snd (execute [Byte.x43; Byte.x0a; Byte.x00; Byte.x00; Byte.x02] VM_init)) = 5%nat /\
  (3 * 1 <= 5 <= 5 * 1)%nat.
Proof.
  apply (execute_normal_end [Byte.x43; Byte.x0a; Byte.x00; Byte.x00; Byte.x02] VM_init _ 1).
  vm_compute. reflexivity.
Defined.

Lemma execute_app_witness :
  execute ([Byte.x43; Byte.x0a; Byte.x00; Byte.x00; Byte.x02] ++ [Byte.x50; Byte.x08; Byte.x80])
          VM_init =
  let '(r, s2) := execute [Byte.x50; Byte.x08; Byte.x80]
                    (snd (execute [Byte.x43; Byte.x0a; Byte.x00; Byte.x00; Byte.x02] VM_init)) in
  (match r with inr (Some k2) => inr (Some (1 + k2)%nat) | _ => r end,
   {| ram := ram s2; reg := reg s2; pc := 5 + pc s2 |}).
Proof.
  apply (execute_app [Byte.x43; Byte.x0a; Byte.x00; Byte.x00; Byte.x02] _ VM_init _ 1).
  vm_compute. reflexivity.
Defined.

Lemma read_semantics_witness :
  let addr := nth (Z.to_nat 1) (reg VM_init) 0 + 5 in
  ((addr < 0 \/ 1024 <= addr) ->
   step [Byte.xc8; Byte.x08; Byte.x51; Byte.x00] VM_init = (inl MemoryFault, VM_init)) /\
  (0 <= addr < 1024 ->
   step [Byte.xc8; Byte.x08; Byte.x51; Byte.x00] VM_init =
   (inr tt, {| ram := ram VM_init;
               reg := set_nth (reg VM_init) (Z.to_nat 2) (nth (Z.to_nat addr) (ram VM_init) 0);
               pc := pc VM_init + 4 |})).
Proof.
  apply (read_semantics [Byte.xc8; Byte.x08; Byte.x51; Byte.x00] VM_init 1 5 2);
    [cbn; lia | reflexivity | reflexivity | reflexivity | reflexivity].
Defined.

Lemma write_semantics_witness :
  let addr := nth (Z.to_nat 2) (reg VM_init) 0 in
  ((addr < 0 \/ 1024 <= addr) ->
   step [Byte.x50; Byte.x08; Byte.x80] VM_init = (inl MemoryFault, VM_init)) /\
  (0 <= addr < 1024 ->
   step [Byte.x50; Byte.x08; Byte.x80] VM_init =
   (inr tt, {| ram := set_nth (ram VM_init) (Z.to_nat addr) (nth (Z.to_nat 1) (reg VM_init) 0);
               reg := reg VM_init; pc := pc VM_init + 3 |})).
Proof.
  apply (write_semantics [Byte.x50; Byte.x08; Byte.x80] VM_init 1 2);
    [cbn; lia | reflexivity | reflexivity | reflexivity | reflexivity].
Defined.

Lemma load_semantics_witness :
  0 <= 10 < 2 ^ 25 /\
  step [Byte.x43; Byte.x0a; Byte.x00; Byte.x00; Byte.x02] VM_init =
  (inr tt, {| ram := ram VM_init; reg := set_nth (reg VM_init) (Z.to_nat 1) 10;
              pc := pc VM_init + 5 |}).
Proof.
  apply (load_semantics [Byte.x43; Byte.x0a; Byte.x00; Byte.x00; Byte.x02] VM_init 10 1);
    [cbn; lia | reflexivity | reflexivity | reflexivity].
Defined.

Lemma encode_decode_bytes_witness :
  exists bs', to_bytes (WriteInst 1 2) = Some bs' /\
    map byte_val bs' =
    removelast (map byte_val [Byte.x50; Byte.x08; Byte.x83]) ++
    [Z.land (last (map byte_val [Byte.x50; Byte.x08; Byte.x83]) 0) (unused_mask (WriteInst 1 2))].
Proof.
  apply (encode_decode_bytes [Byte.x50; Byte.x08; Byte.x83] (WriteInst 1 2)). reflexivity.
Defined.

Lemma assembled_runs_witness :
  let bs := [Byte.x43; Byte.x0a; Byte.x00; Byte.x00; Byte.x02; Byte.x50; Byte.x08; Byte.x80] in
  (exists s', execute bs VM_init = (inr (Some (length [LoadInst 10 1; WriteInst 1 2])), s')) \/
  fst (execute bs VM_init) = inl MemoryFault \/ fst (execute bs VM_init) = inl IndexError.
Proof.
  intros bs. apply (assembled_runs [LoadInst 10 1; WriteInst 1 2] bs VM_init). reflexivity.
Defined.

Lemma parse_line_comment_witness :
  parse_line ("LOAD 10,R1" ++ ";" ++ " ten into R1") = inr (Some (LoadInst 10 1)).
Proof.
  apply (parse_line_comment "LOAD 10,R1" " ten into R1");
    [simpl; intuition discriminate | vm_compute; reflexivity].
Defined.

Lemma parse_line_registers_witness : instr_regs_ok (ReadInst 1 5 2).
Proof.
  apply (parse_line_registers "READ R1, 5, R2"). reflexivity.
Defined.
